(** * A shallow embedding of the left-leaning red-black tree of
      [internal/llrb.go] and of the public handle [Tree].

    Pointers to nodes are modelled by an inductive type whose constructor
    [Nil] is Go's [nil]; every node exclusively owns its two children, so a
    subtree is a value.  A call that dereferences [nil] panics at run time:
    such calls return [Panic].  [Delete] and [DeleteMin] recurse on a child of
    a node that was rotated first, so they are defined with a recursion
    budget; [Exhausted] is the outcome of a budget that was too small, and
    the budget the model passes is shown to be always large enough. *)

From Stdlib Require Import ZArith List Bool Lia Sorted Permutation.
Import ListNotations.

(** ** Outcome of a call *)

Inductive outcome (A : Type) : Type :=
| Ok (a : A)
| Panic
| Exhausted.

Arguments Ok {A} a.
Arguments Panic {A}.
Arguments Exhausted {A}.

Definition bind {A B : Type} (m : outcome A) (f : A -> outcome B) : outcome B :=
  match m with
  | Ok a => f a
  | Panic => Panic
  | Exhausted => Exhausted
  end.

Notation "x <- m ;; f" := (bind m (fun x => f))
  (at level 61, m at next level, right associativity).

(** Go's short-circuit [a && b] when evaluating an operand may panic. *)
Definition andM (a b : outcome bool) : outcome bool :=
  x <- a ;; if x then b else Ok false.

Definition notM (a : outcome bool) : outcome bool :=
  x <- a ;; Ok (negb x).

(** Two outcomes agree when they are equal and no budget ran out. *)
Definition agree {A : Type} (o1 o2 : outcome A) : Prop :=
  o1 = o2 /\ o1 <> Exhausted.

(** [subseq l1 l2]: [l1] is [l2] with some elements left out. *)
Inductive subseq {A : Type} : list A -> list A -> Prop :=
| subseq_nil : subseq [] []
| subseq_skip : forall x l1 l2, subseq l1 l2 -> subseq l1 (x :: l2)
| subseq_keep : forall x l1 l2, subseq l1 l2 -> subseq (x :: l1) (x :: l2).

(** ** Keys and values

    [K cmp.Ordered]: a type with Go's [==] and [<].  The laws are those of
    the integer and string types; floating-point keys (where NaN is not equal
    to itself) are outside this model. *)

Class Ordered (K : Type) : Type := {
  keq : K -> K -> bool;
  klt : K -> K -> bool;
  keq_spec : forall a b, keq a b = true <-> a = b;
  klt_irrefl : forall a, klt a a = false;
  klt_trans : forall a b c, klt a b = true -> klt b c = true -> klt a c = true;
  klt_total : forall a b, klt a b = false -> keq a b = false -> klt b a = true
}.

(** [V any]: every Go type has a zero value ([var zeroVal V]). *)
Class HasZero (V : Type) : Type := zeroVal : V.

#[export] Program Instance Ordered_Z : Ordered Z :=
  {| keq := Z.eqb; klt := Z.ltb |}.
Next Obligation. apply Z.eqb_eq. Qed.
Next Obligation. apply Z.ltb_irrefl. Qed.
Next Obligation.
  match goal with
  | H1 : _ = true, H2 : _ = true |- _ =>
      apply Z.ltb_lt in H1; apply Z.ltb_lt in H2
  end.
  apply Z.ltb_lt; lia.
Qed.
Next Obligation.
  match goal with
  | H1 : _ = false, H2 : _ = false |- _ =>
      apply Z.ltb_ge in H1; apply Z.eqb_neq in H2
  end.
  apply Z.ltb_lt; lia.
Qed.

#[export] Instance HasZero_Z : HasZero Z := 0%Z.

(** ** Nodes *)

(** [type Direction int] with its two constants, the only values the code
    passes as index into [children]. *)
Inductive Direction : Type := Left | Right.

(** [1 - direction] *)
Definition opposite (d : Direction) : Direction :=
  match d with Left => Right | Right => Left end.

(** [type Color int] with its two constants; [SetColor] panics on any other
    value, and none is ever passed. *)
Inductive Color : Type := ColorBlack | ColorRed.

Section LLRB.

Context {K V : Type} `{Ordered K} `{HasZero V}.

(** [*Node[K, V]].  The field [parent] is never read nor written by any
    function and is left out. *)
Inductive Node : Type :=
| Nil
| N (Key : K) (Value : V) (left right : Node) (isBlack : bool).

(** [n.children[d]] *)
Definition children (n : Node) (d : Direction) : outcome Node :=
  match n with
  | Nil => Panic
  | N _ _ l r _ => Ok (match d with Left => l | Right => r end)
  end.

(** [n.children[d] = c] *)
Definition set_children (n : Node) (d : Direction) (c : Node) : outcome Node :=
  match n with
  | Nil => Panic
  | N k v l r b =>
      Ok (match d with Left => N k v c r b | Right => N k v l c b end)
  end.

Definition get_Key (n : Node) : outcome K :=
  match n with Nil => Panic | N k _ _ _ _ => Ok k end.

Definition get_Value (n : Node) : outcome V :=
  match n with Nil => Panic | N _ v _ _ _ => Ok v end.

Definition get_isBlack (n : Node) : outcome bool :=
  match n with Nil => Panic | N _ _ _ _ b => Ok b end.

Definition set_Key (n : Node) (k : K) : outcome Node :=
  match n with Nil => Panic | N _ v l r b => Ok (N k v l r b) end.

Definition set_Value (n : Node) (v : V) : outcome Node :=
  match n with Nil => Panic | N k _ l r b => Ok (N k v l r b) end.

Definition set_isBlack (n : Node) (b : bool) : outcome Node :=
  match n with Nil => Panic | N k v l r _ => Ok (N k v l r b) end.

Definition NodeLeft (n : Node) : outcome Node := children n Left.
Definition NodeRight (n : Node) : outcome Node := children n Right.

Definition NewNode (key : K) (value : V) : Node := N key value Nil Nil false.

Definition is_nil (n : Node) : bool :=
  match n with Nil => true | N _ _ _ _ _ => false end.

(** ** Search *)

Fixpoint Search (root : Node) (key : K) : V * bool :=
  match root with
  | Nil => (zeroVal, false)
  | N k v l r _ =>
      if keq key k then (v, true)
      else if klt key k then Search r key
      else Search l key
  end.

Fixpoint SearchMin (root : Node) : outcome Node :=
  match root with
  | Nil => Panic
  | N _ _ l _ _ =>
      match l with
      | Nil => Ok root
      | N _ _ _ _ _ => SearchMin l
      end
  end.

(** ** Helpers *)

Definition IsRed (node : Node) : bool :=
  match node with
  | Nil => false
  | N _ _ _ _ b => negb b
  end.

(** The old root is reachable from the pivot after [x.children[direction] =
    root], so the recolouring of the old root is applied to the copy stored
    under the pivot. *)
Definition Rotate (root : Node) (direction : Direction) : outcome Node :=
  x <- children root (opposite direction) ;;
  xd <- children x direction ;;
  root1 <- set_children root (opposite direction) xd ;;
  rootBlack <- get_isBlack root1 ;;
  root2 <- set_isBlack root1 false ;;
  x1 <- set_children x direction root2 ;;
  set_isBlack x1 rootBlack.

Definition toggle (n : Node) : Node :=
  match n with
  | Nil => Nil
  | N k v l r b => N k v l r (negb b)
  end.

Definition FlipColor (node : Node) : outcome Node :=
  match node with
  | Nil => Panic
  | N k v l r b => Ok (N k v (toggle l) (toggle r) (negb b))
  end.

Definition FixUp (root : Node) : outcome Node :=
  r <- NodeRight root ;;
  root <- (if IsRed r then Rotate root Left else Ok root) ;;
  c <- andM (l <- NodeLeft root ;; Ok (IsRed l))
            (l <- NodeLeft root ;; ll <- NodeLeft l ;; Ok (IsRed ll)) ;;
  root <- (if c then Rotate root Right else Ok root) ;;
  c <- andM (l <- NodeLeft root ;; Ok (IsRed l))
            (r <- NodeRight root ;; Ok (IsRed r)) ;;
  if c then FlipColor root else Ok root.

Definition MoveRedLeft (root : Node) : outcome Node :=
  root <- FlipColor root ;;
  r <- NodeRight root ;;
  rl <- NodeLeft r ;;
  if IsRed rl then
    r' <- Rotate r Right ;;
    root <- set_children root Right r' ;;
    root <- Rotate root Left ;;
    FlipColor root
  else Ok root.

Definition MoveRedRight (root : Node) : outcome Node :=
  root <- FlipColor root ;;
  l <- NodeLeft root ;;
  ll <- NodeLeft l ;;
  if IsRed ll then Rotate root Right else Ok root.

Definition SetColor (node : Node) (color : Color) : outcome Node :=
  match color with
  | ColorBlack => set_isBlack node true
  | ColorRed => set_isBlack node false
  end.

(** ** Insertion *)

Fixpoint Insert (root : Node) (key : K) (value : V) : outcome Node :=
  match root with
  | Nil => Ok (NewNode key value)
  | N k v l r b =>
      if keq key k then FixUp (N k value l r b)
      else
        if klt key k
        then l' <- Insert l key value ;; FixUp (N k v l' r b)
        else r' <- Insert r key value ;; FixUp (N k v l r' b)
  end.

(** ** Deletion *)

Fixpoint DeleteMin_fuel (fuel : nat) (root : Node) : outcome Node :=
  match fuel with
  | O => Exhausted
  | S fuel =>
      l <- NodeLeft root ;;
      if is_nil l then Ok Nil
      else
        c <- andM (notM (l <- NodeLeft root ;; Ok (IsRed l)))
                  (notM (l <- NodeLeft root ;; ll <- NodeLeft l ;; Ok (IsRed ll))) ;;
        root <- (if c then MoveRedLeft root else Ok root) ;;
        l <- NodeLeft root ;;
        l' <- DeleteMin_fuel fuel l ;;
        root <- set_children root Left l' ;;
        FixUp root
  end.

Fixpoint Delete_fuel (fuel : nat) (root : Node) (key : K) : outcome Node :=
  match fuel with
  | O => Exhausted
  | S fuel =>
      rk <- get_Key root ;;
      if klt key rk then
        c <- andM (notM (l <- NodeLeft root ;; Ok (IsRed l)))
                  (notM (l <- NodeLeft root ;; ll <- NodeLeft l ;; Ok (IsRed ll))) ;;
        root <- (if c then MoveRedLeft root else Ok root) ;;
        l <- NodeLeft root ;;
        l' <- Delete_fuel fuel l key ;;
        root <- set_children root Left l' ;;
        FixUp root
      else
        l <- NodeLeft root ;;
        root <- (if IsRed l then Rotate root Right else Ok root) ;;
        rk <- get_Key root ;;
        r <- NodeRight root ;;
        if keq key rk && is_nil r then Ok Nil
        else
          c <- andM (notM (l <- NodeLeft root ;; Ok (IsRed l)))
                    (notM (r <- NodeRight root ;; Ok (IsRed r))) ;;
          root <- (if c then MoveRedRight root else Ok root) ;;
          rk <- get_Key root ;;
          if keq key rk then
            r <- NodeRight root ;;
            minNode <- SearchMin r ;;
            mk <- get_Key minNode ;;
            root <- set_Key root mk ;;
            mv <- get_Value minNode ;;
            root <- set_Value root mv ;;
            r <- NodeRight root ;;
            r' <- DeleteMin_fuel fuel r ;;
            root <- set_children root Right r' ;;
            FixUp root
          else
            r <- NodeRight root ;;
            r' <- Delete_fuel fuel r key ;;
            root <- set_children root Right r' ;;
            FixUp root
  end.

(** Number of nodes of a subtree. *)
Fixpoint size (n : Node) : nat :=
  match n with
  | Nil => 0
  | N _ _ l r _ => S (size l + size r)
  end.

(** Every recursive call is on a subtree with fewer nodes, so a budget above
    the number of nodes is never used up (see [Delete_fuel_enough]). *)
Definition DeleteMin (root : Node) : outcome Node :=
  DeleteMin_fuel (S (size root)) root.

Definition Delete (root : Node) (key : K) : outcome Node :=
  Delete_fuel (S (size root)) root key.

(** ** The public handle *)

Record Tree : Type := mkTree { root : Node }.

(** The zero value of [Tree]: no root. *)
Definition emptyTree : Tree := mkTree Nil.

Definition Tree_Search (t : Tree) (key : K) : V * bool :=
  Search (root t) key.

Definition Tree_Insert (t : Tree) (key : K) (value : V) : outcome Tree :=
  r <- Insert (root t) key value ;;
  r <- SetColor r ColorBlack ;;
  Ok (mkTree r).

Definition Tree_Delete (t : Tree) (key : K) : outcome Tree :=
  r <- Delete (root t) key ;;
  r <- SetColor r ColorBlack ;;
  Ok (mkTree r).

End LLRB.

(** ** What the specification talks about *)

Section Invariants.

Context {K V : Type} `{Ordered K} `{HasZero V}.

(** In-order traversal. *)
Fixpoint elements (n : Node (K:=K) (V:=V)) : list (K * V) :=
  match n with
  | Nil => []
  | N k v l r _ => elements l ++ (k, v) :: elements r
  end.

Definition keys (n : Node (K:=K) (V:=V)) : list K := map fst (elements n).

Definition key_lt (a b : K) : Prop := klt a b = true.

(** The in-order traversal yields the keys in strictly increasing order. *)
Definition ordered (n : Node (K:=K) (V:=V)) : Prop :=
  StronglySorted key_lt (keys n).

(** The list of (key, value) pairs after an insert-or-overwrite of [key] in
    a list sorted by key. *)
Fixpoint put (key : K) (value : V) (l : list (K * V)) : list (K * V) :=
  match l with
  | [] => [(key, value)]
  | (k, v) :: rest =>
      if keq key k then (k, value) :: rest
      else if klt key k then (key, value) :: (k, v) :: rest
      else (k, v) :: put key value rest
  end.

(** A stored pair whose key is smaller, respectively greater, than [k]. *)
Definition below (k : K) (kv : K * V) : Prop := klt (fst kv) k = true.
Definition above (k : K) (kv : K * V) : Prop := klt k (fst kv) = true.

(** What an overwrite of [key] with [value] does to one stored pair. *)
Definition overwrite (key : K) (value : V) (kv : K * V) : K * V :=
  if keq key (fst kv) then (fst kv, value) else kv.

(** The stored pairs whose key is [key]. *)
Definition holding (key : K) (l : list (K * V)) : list (K * V) :=
  filter (fun kv => keq (fst kv) key) l.

(** The link from a parent to [child] is black when [child] is a black node. *)
Definition black_link (child : Node (K:=K) (V:=V)) : nat :=
  match child with
  | N _ _ _ _ true => 1
  | _ => 0
  end.

(** For every path from [n] down to an absent-child position, the number of
    black links on it. *)
Fixpoint black_paths (n : Node (K:=K) (V:=V)) : list nat :=
  match n with
  | Nil => [0]
  | N _ _ l r _ =>
      map (Nat.add (black_link l)) (black_paths l)
      ++ map (Nat.add (black_link r)) (black_paths r)
  end.

Definition all_equal (l : list nat) : bool :=
  match l with
  | [] => true
  | h :: t => forallb (Nat.eqb h) t
  end.

(** Perfect black balance. *)
Definition black_balanced (n : Node (K:=K) (V:=V)) : bool :=
  all_equal (black_paths n).

(** No red node has a red right child. *)
Fixpoint no_red_right_under_red (n : Node (K:=K) (V:=V)) : bool :=
  match n with
  | Nil => true
  | N _ _ l r b =>
      negb (negb b && IsRed r)
      && no_red_right_under_red l && no_red_right_under_red r
  end.

(** No two consecutive red links: no red node has a red child. *)
Fixpoint no_red_red (n : Node (K:=K) (V:=V)) : bool :=
  match n with
  | Nil => true
  | N _ _ l r b =>
      negb (negb b && (IsRed l || IsRed r))
      && no_red_red l && no_red_red r
  end.

Definition root_black (n : Node (K:=K) (V:=V)) : bool := negb (IsRed n).

(** The three parts of the red-link discipline together. *)
Definition red_rules (n : Node (K:=K) (V:=V)) : bool :=
  no_red_right_under_red n && no_red_red n && root_black n.

(** The shape of a left-leaning red-black subtree with a black (or absent)
    root, [h] black nodes on every path: an absent subtree, a black node with
    two such subtrees, or a black node whose left child is a red node and
    whose other subtrees are such subtrees. *)
Inductive llrb : nat -> Node (K:=K) (V:=V) -> Prop :=
| llrb_nil : llrb 0 Nil
| llrb_two : forall k v l r h,
    llrb h l -> llrb h r -> llrb (S h) (N k v l r true)
| llrb_three : forall k v kl vl ll lr r h,
    llrb h ll -> llrb h lr -> llrb h r ->
    llrb (S h) (N k v (N kl vl ll lr false) r true).

(** A red node over two such subtrees: what [Insert] may return to a black
    parent. *)
Inductive red_ok : nat -> Node (K:=K) (V:=V) -> Prop :=
| red_ok_intro : forall k v l r h,
    llrb h l -> llrb h r -> red_ok h (N k v l r false).

(** A red node with a red left child: what [Insert] may return from a red
    left child, for the parent's [FixUp] to repair. *)
Inductive red_red : nat -> Node (K:=K) (V:=V) -> Prop :=
| red_red_intro : forall k v l r h,
    red_ok h l -> llrb h r -> red_red h (N k v l r false).

(** The two shapes [DeleteMin] is called on: a red node over two
    well-formed subtrees, and a black node with a red left child. *)
Definition DeleteMin_red (h : nat) : Prop :=
  forall (t : Node (K:=K) (V:=V)) (n : nat),
    red_ok h t -> size t < n ->
    exists t', DeleteMin_fuel n t = Ok t'
               /\ elements t' = tl (elements t)
               /\ (llrb h t' \/ red_ok h t').

Definition DeleteMin_black (h : nat) : Prop :=
  forall (k : K) (v : V) (l r : Node (K:=K) (V:=V)) (n : nat),
    red_ok h l -> llrb h r -> size (N k v l r true) < n ->
    exists t', DeleteMin_fuel n (N k v l r true) = Ok t'
               /\ elements t' = tl (elements (N k v l r true))
               /\ llrb (S h) t'.

(** Number of nodes on the longest path from [n] down to an absent child. *)
Fixpoint height (n : Node (K:=K) (V:=V)) : nat :=
  match n with
  | Nil => 0
  | N _ _ l r _ => S (Nat.max (height l) (height r))
  end.

(** The in-order traversal after the inserts of [kvs], one after the other,
    into a tree with the in-order traversal [l]. *)
Definition put_all (kvs l : list (K * V)) : list (K * V) :=
  fold_left (fun acc kv => put (fst kv) (snd kv) acc) kvs l.

(** Operations of the public handle, and runs of them. *)
Inductive op : Type :=
| OpInsert (key : K) (value : V)
| OpDelete (key : K).

Definition apply_op (t : Tree (K:=K) (V:=V)) (o : op) : outcome Tree :=
  match o with
  | OpInsert key value => Tree_Insert t key value
  | OpDelete key => Tree_Delete t key
  end.

Fixpoint run (ops : list op) (t : Tree (K:=K) (V:=V)) : outcome Tree :=
  match ops with
  | [] => Ok t
  | o :: rest => t' <- apply_op t o ;; run rest t'
  end.

(** A run that also reports whether [inv] held after every operation. *)
Fixpoint run_checking (inv : Tree (K:=K) (V:=V) -> bool) (ops : list op)
    (t : Tree (K:=K) (V:=V)) : outcome (Tree * bool) :=
  match ops with
  | [] => Ok (t, true)
  | o :: rest =>
      t' <- apply_op t o ;;
      res <- run_checking inv rest t' ;;
      Ok (fst res, inv t' && snd res)
  end.

(** Trees the public handle can hold: from the empty tree, by calls of
    [Insert] and [Delete] that return. *)
Inductive reachable : Tree (K:=K) (V:=V) -> Prop :=
| reachable_empty : reachable emptyTree
| reachable_Insert : forall t key value t',
    reachable t -> Tree_Insert t key value = Ok t' -> reachable t'
| reachable_Delete : forall t key t',
    reachable t -> Tree_Delete t key = Ok t' -> reachable t'.

Definition insert_all (kvs : list (K * V)) : outcome (Tree (K:=K) (V:=V)) :=
  run (map (fun kv => OpInsert (fst kv) (snd kv)) kvs) emptyTree.

End Invariants.

(** ** Concrete trees with integer keys and values *)

Open Scope Z_scope.

Definition ZTree : Type := Tree (K:=Z) (V:=Z).

Definition ins (k : Z) : op (K:=Z) (V:=Z) := OpInsert k k.
Definition del (k : Z) : op (K:=Z) (V:=Z) := OpDelete k.

(** [from..from+n-1] *)
Definition ascending (from : Z) (n : nat) : list Z :=
  map (fun i => from + Z.of_nat i) (seq 0 n).

(** Twelve inserts after which the right child of the root holds two keys. *)
Definition twelve_inserts : list (op (K:=Z) (V:=Z)) :=
  map ins [1; 2; 3; 6; 7; 4; 8; 9; 5; 10; 11; 12].

Definition leaf (k : Z) (black : bool) : Node (K:=Z) (V:=Z) :=
  N k k Nil Nil black.

Definition invariants (t : ZTree) : bool :=
  black_balanced (root t) && red_rules (root t).

(** The tree the twelve inserts build. *)
Definition tree_of_twelve : Node (K:=Z) (V:=Z) :=
  N 6 6
    (N 4 4 (N 2 2 (leaf 1 true) (leaf 3 true) false) (leaf 5 true) true)
    (N 10 10 (N 8 8 (leaf 7 true) (leaf 9 true) false)
             (N 12 12 (leaf 11 false) Nil true) true)
    true.

(** The tree after the delete of key 10: the red node 6 has the red right
    child 8. *)
Definition tree_after_delete_10 : Node (K:=Z) (V:=Z) :=
  N 4 4
    (N 2 2 (leaf 1 true) (leaf 3 true) true)
    (N 11 11
       (N 6 6 (leaf 5 true) (N 8 8 (leaf 7 true) (leaf 9 true) false) false)
       (leaf 12 true) true)
    true.

(** The tree after the further delete of key 4: node 6 has no left child
    and a black right child with two black children. *)
Definition tree_after_delete_4 : Node (K:=Z) (V:=Z) :=
  N 5 5
    (N 2 2 (leaf 1 true) (leaf 3 true) true)
    (N 11 11
       (N 6 6 Nil (N 8 8 (leaf 7 true) (leaf 9 true) true) true)
       (leaf 12 true) true)
    true.

(** Insert [1..1000] ascending, then delete ascending. *)
Definition scenario_inserts : list (op (K:=Z) (V:=Z)) :=
  map ins (ascending 1 1000).

Definition scenario_deletes (n : nat) : list (op (K:=Z) (V:=Z)) :=
  map del (ascending 1 n).

Definition scenario : list (op (K:=Z) (V:=Z)) :=
  scenario_inserts ++ scenario_deletes 1000.

(** A root with a red left child, as pivot of a right rotation. *)
Definition rotate_root : Node (K:=Z) (V:=Z) :=
  N 4 4 (N 2 2 (leaf 1 true) (leaf 3 true) false) (leaf 6 true) true.

Definition rotate_pivot : Node (K:=Z) (V:=Z) :=
  N 2 2 (leaf 1 true) (leaf 3 true) false.

(** The handle after the inserts of 2, 1 and 3. *)
Definition three_keys : ZTree :=
  mkTree (N 2 2 (leaf 1 true) (leaf 3 true) true).

Close Scope Z_scope.

(** * Properties *)

Section Properties.

Context {K V : Type} `{Ordered K} `{HasZero V}.

Local Abbreviation Node := (Node (K:=K) (V:=V)).
Local Abbreviation Tree := (Tree (K:=K) (V:=V)).

(** ** Keys *)

Lemma keq_refl (a : K) : keq a a = true.
Proof. apply keq_spec; reflexivity. Qed.

Lemma klt_not_eq (a b : K) : klt a b = true -> keq a b = false.
Proof.
  intros Hlt. destruct (keq a b) eqn:E; [|reflexivity].
  apply keq_spec in E; subst b. rewrite klt_irrefl in Hlt; discriminate.
Qed.

Lemma klt_asym (a b : K) : klt a b = true -> klt b a = false.
Proof.
  intros Hab. destruct (klt b a) eqn:E; [|reflexivity].
  pose proof (klt_trans _ _ _ Hab E) as Haa.
  rewrite klt_irrefl in Haa; discriminate.
Qed.

Lemma klt_not_eq_sym (a b : K) : klt a b = true -> keq b a = false.
Proof.
  intros Hlt. destruct (keq b a) eqn:E; [|reflexivity].
  apply keq_spec in E; subst b. rewrite klt_irrefl in Hlt; discriminate.
Qed.

(** ** Rotation *)

(** C9: when the pivot (the child opposite [direction]) exists, [Rotate]
    returns the pivot as new subtree root, with the old root's former colour;
    the old root is its child on [direction]'s side, is red, keeps its own
    child on that side and receives the pivot's former [direction]-side child
    on the opposite side; the pivot keeps its other child; keys and values
    stay where they were.  These equations determine the result, so nothing
    else changes. *)
Theorem Rotate_spec :
  forall (root pivot : Node) (direction : Direction),
    children root (opposite direction) = Ok pivot ->
    pivot <> Nil ->
    exists newRoot oldRoot,
      Rotate root direction = Ok newRoot
      /\ get_Key newRoot = get_Key pivot
      /\ get_Value newRoot = get_Value pivot
      /\ get_isBlack newRoot = get_isBlack root
      /\ children newRoot direction = Ok oldRoot
      /\ children newRoot (opposite direction)
         = children pivot (opposite direction)
      /\ get_Key oldRoot = get_Key root
      /\ get_Value oldRoot = get_Value root
      /\ get_isBlack oldRoot = Ok false
      /\ children oldRoot direction = children root direction
      /\ children oldRoot (opposite direction) = children pivot direction.
Proof.
  intros root pivot direction Hpivot Hnil.
  destruct root as [|k v l r b]; [discriminate|].
  destruct pivot as [|kx vx lx rx bx]; [congruence|].
  destruct direction; simpl in Hpivot; inversion Hpivot; subst;
    unfold Rotate; simpl; do 2 eexists; repeat split.
Qed.

Lemma Rotate_without_pivot (root : Node) (direction : Direction) :
  children root (opposite direction) = Ok Nil ->
  Rotate root direction = Panic.
Proof.
  intros Hpivot. unfold Rotate. rewrite Hpivot. reflexivity.
Qed.

(** ** Search *)

Lemma Search_node (k : K) (v : V) (l r : Node) (b : bool) (key : K) :
  Search (N k v l r b) key
  = if keq key k then (v, true)
    else if klt key k then Search r key else Search l key.
Proof. reflexivity. Qed.

(** C10: when [Search] reports not-found, the value it returns is the zero
    value of the value type. *)
Theorem Search_not_found_zero :
  forall (root : Node) (key : K),
    snd (Search root key) = false -> fst (Search root key) = zeroVal.
Proof.
  intros n. induction n as [|k v l IHl r IHr b]; intros key Hnot.
  - reflexivity.
  - rewrite Search_node in *.
    destruct (keq key k).
    + discriminate.
    + destruct (klt key k); auto.
Qed.

(** ** Emptying the tree through the handle *)

Lemma Delete_single (k : K) (v : V) (b : bool) :
  Delete (N k v Nil Nil b) k = Ok Nil.
Proof.
  unfold Delete; simpl.
  rewrite klt_irrefl; simpl. rewrite keq_refl; reflexivity.
Qed.

(** C6: on a tree with exactly one key, the recursive [Delete] of that key
    returns the absent root, [SetColor] on the absent root panics, and so does
    the handle's [Delete]; more generally the handle's [Delete] panics
    whenever the recursive [Delete] returns the absent root, and it never
    returns with an empty tree. *)
Theorem Tree_Delete_last_key_panics :
  forall (k : K) (v : V) (b : bool),
    Delete (N k v Nil Nil b) k = Ok Nil
    /\ SetColor (Nil : Node) ColorBlack = Panic
    /\ Tree_Delete (mkTree (N k v Nil Nil b)) k = Panic
    /\ (forall (t : Tree) (key : K),
           Delete (root t) key = Ok Nil -> Tree_Delete t key = Panic)
    /\ (forall (t : Tree) (key : K), Tree_Delete t key <> Ok emptyTree).
Proof.
  intros k v b.
  assert (Hgen : forall (t : Tree) (key : K),
             Delete (root t) key = Ok Nil -> Tree_Delete t key = Panic).
  { intros t key Hdel. unfold Tree_Delete. rewrite Hdel. reflexivity. }
  repeat split.
  - apply Delete_single.
  - apply (Hgen (mkTree (N k v Nil Nil b))). apply Delete_single.
  - exact Hgen.
  - intros t key. unfold Tree_Delete.
    destruct (Delete (root t) key) as [r| |]; simpl; try discriminate.
    destruct r; simpl; discriminate.
Qed.

(** ** In-order traversal through the rebalancing steps *)

(** Case analysis on the colour tests of the code: whether the tested
    pointer is absent, black or red. *)
Ltac case_IsRed :=
  match goal with
  | |- context [IsRed ?x] => is_var x; destruct x as [|? ? ? ? [|]]; cbn
  end.

Lemma size_elements (n : Node) : size n = length (elements n).
Proof.
  induction n as [|k v l IHl r IHr b]; simpl.
  - reflexivity.
  - rewrite length_app; simpl. lia.
Qed.

Lemma toggle_elements (n : Node) : elements (toggle n) = elements n.
Proof. destruct n; reflexivity. Qed.

Lemma FlipColor_elements (n t : Node) :
  FlipColor n = Ok t -> elements t = elements n.
Proof.
  destruct n as [|k v l r b]; simpl; intros E; inversion E; subst.
  simpl. rewrite !toggle_elements. reflexivity.
Qed.

Lemma Rotate_elements (n t : Node) (d : Direction) :
  Rotate n d = Ok t -> elements t = elements n.
Proof.
  destruct n as [|k v l r b]; [discriminate|].
  destruct d; unfold Rotate; simpl.
  - destruct r as [|kx vx lx rx bx]; simpl; intros E; inversion E; subst.
    simpl. rewrite <- app_assoc. reflexivity.
  - destruct l as [|kx vx lx rx bx]; simpl; intros E; inversion E; subst.
    simpl. rewrite <- app_assoc. reflexivity.
Qed.

Lemma SetColor_elements (n t : Node) (c : Color) :
  SetColor n c = Ok t -> elements t = elements n.
Proof.
  destruct n; destruct c; simpl; intros E; inversion E; reflexivity.
Qed.

(** [FixUp] returns on every node, and neither adds, removes nor reorders
    anything. *)
Lemma FixUp_elements (k : K) (v : V) (l r : Node) (b : bool) :
  exists t, FixUp (N k v l r b) = Ok t
            /\ t <> Nil
            /\ elements t = elements (N k v l r b).
Proof.
  unfold FixUp; cbn.
  repeat case_IsRed;
    eexists; (split; [reflexivity|]); (split; [discriminate|]);
    cbn; rewrite ?toggle_elements, <- ?app_assoc; cbn;
    rewrite <- ?app_assoc; reflexivity.
Qed.

(** ** Sorted lists of pairs *)

Lemma sorted_app_inv (l1 l2 : list (K * V)) (k : K) (v : V) :
  StronglySorted key_lt (map fst (l1 ++ (k, v) :: l2)) ->
  StronglySorted key_lt (map fst l1)
  /\ StronglySorted key_lt (map fst l2)
  /\ Forall (below k) l1
  /\ Forall (above k) l2.
Proof.
  induction l1 as [|[k1 v1] l1 IH]; simpl; intros Hs.
  - apply StronglySorted_inv in Hs. destruct Hs as [Hs Hall].
    repeat split; auto using SSorted_nil.
    rewrite Forall_map in Hall. exact Hall.
  - apply StronglySorted_inv in Hs. destruct Hs as [Hs Hall].
    destruct (IH Hs) as (S1 & S2 & B & A).
    rewrite map_app, Forall_app in Hall. destruct Hall as [Hl Hr].
    repeat split; auto.
    + constructor; assumption.
    + constructor; [|assumption].
      simpl in Hr. inversion Hr; subst. assumption.
Qed.

Lemma put_app_lt (key : K) (value : V) (l1 l2 : list (K * V)) (k : K) (v : V) :
  klt key k = true ->
  put key value (l1 ++ (k, v) :: l2) = put key value l1 ++ (k, v) :: l2.
Proof.
  intros Hlt. induction l1 as [|[k1 v1] l1 IH]; simpl.
  - rewrite (klt_not_eq _ _ Hlt), Hlt. reflexivity.
  - destruct (keq key k1); [reflexivity|].
    destruct (klt key k1); [reflexivity|].
    rewrite IH. reflexivity.
Qed.

Lemma put_past (key : K) (value : V) (l1 rest : list (K * V)) :
  Forall (below key) l1 ->
  put key value (l1 ++ rest) = l1 ++ put key value rest.
Proof.
  induction l1 as [|[k1 v1] l1 IH]; simpl; intros Hall.
  - reflexivity.
  - inversion Hall as [|? ? Hb Hrest]; subst. unfold below in Hb; simpl in Hb.
    rewrite (klt_not_eq_sym _ _ Hb), (klt_asym _ _ Hb), (IH Hrest).
    reflexivity.
Qed.

Lemma below_trans (k key : K) (l : list (K * V)) :
  klt k key = true -> Forall (below k) l -> Forall (below key) l.
Proof.
  intros Hlt Hall. eapply Forall_impl; [|exact Hall].
  intros kv Hb. unfold below in *. eapply klt_trans; eassumption.
Qed.

Lemma put_above (k key : K) (value : V) (l : list (K * V)) :
  klt k key = true -> Forall (above k) l -> Forall (above k) (put key value l).
Proof.
  intros Hlt. induction l as [|[k1 v1] l IH]; simpl; intros Hall.
  - constructor; [exact Hlt|constructor].
  - inversion Hall as [|? ? Ha Hrest]; subst.
    destruct (keq key k1) eqn:E.
    + constructor; assumption.
    + destruct (klt key k1); constructor; auto.
Qed.

Lemma put_sorted (key : K) (value : V) (l : list (K * V)) :
  StronglySorted key_lt (map fst l) ->
  StronglySorted key_lt (map fst (put key value l)).
Proof.
  induction l as [|[k1 v1] l IH]; simpl; intros Hs.
  - constructor; constructor.
  - apply StronglySorted_inv in Hs. destruct Hs as [Hs Hall].
    destruct (keq key k1) eqn:E; [constructor; assumption|].
    destruct (klt key k1) eqn:L; simpl.
    + constructor.
      * constructor; assumption.
      * constructor; [exact L|].
        eapply Forall_impl; [|exact Hall].
        intros a Ha. unfold key_lt in *. eapply klt_trans; eassumption.
    + constructor; [auto|].
      rewrite Forall_map in Hall |- *.
      apply put_above; [|exact Hall].
      apply klt_total; [exact L|exact E].
Qed.

(** ** Insertion *)

Lemma Insert_returns (n : Node) (key : K) (value : V) :
  exists t, Insert n key value = Ok t /\ t <> Nil.
Proof.
  induction n as [|k v l IHl r IHr b]; simpl.
  - eexists; split; [reflexivity|discriminate].
  - destruct (keq key k).
    + destruct (FixUp_elements k value l r b) as (t & E & Hn & _); eauto.
    + destruct (klt key k).
      * destruct IHl as (l' & El & _). rewrite El; simpl.
        destruct (FixUp_elements k v l' r b) as (t & E & Hn & _); eauto.
      * destruct IHr as (r' & Er & _). rewrite Er; simpl.
        destruct (FixUp_elements k v l r' b) as (t & E & Hn & _); eauto.
Qed.

(** On a tree whose in-order keys increase, [Insert] acts on the in-order
    traversal as the insert-or-overwrite of a sorted list. *)
Lemma Insert_elements (n t : Node) (key : K) (value : V) :
  ordered n ->
  Insert n key value = Ok t ->
  elements t = put key value (elements n).
Proof.
  revert t. induction n as [|k v l IHl r IHr b]; simpl; intros t Hord E.
  - inversion E; reflexivity.
  - destruct (sorted_app_inv _ _ _ _ Hord) as (Sl & Sr & Bl & Ar).
    destruct (keq key k) eqn:Ek.
    + apply keq_spec in Ek; subst key.
      destruct (FixUp_elements k value l r b) as (t' & E' & _ & El).
      rewrite E' in E; inversion E; subst t'. rewrite El; simpl.
      rewrite put_past by exact Bl. simpl. rewrite keq_refl. reflexivity.
    + destruct (klt key k) eqn:Lk.
      * destruct (Insert l key value) as [l'| |] eqn:El; try discriminate.
        simpl in E.
        destruct (FixUp_elements k v l' r b) as (t' & E' & _ & Et).
        rewrite E' in E; inversion E; subst t'. rewrite Et; simpl.
        rewrite (IHl l' Sl eq_refl), put_app_lt by exact Lk. reflexivity.
      * destruct (Insert r key value) as [r'| |] eqn:Er; try discriminate.
        simpl in E.
        destruct (FixUp_elements k v l r' b) as (t' & E' & _ & Et).
        rewrite E' in E; inversion E; subst t'. rewrite Et; simpl.
        assert (Hgt : klt k key = true) by (apply klt_total; assumption).
        rewrite put_past by (eapply below_trans; eassumption).
        simpl. rewrite Ek, Lk, (IHr r' Sr eq_refl). reflexivity.
Qed.

Lemma Insert_ordered (n t : Node) (key : K) (value : V) :
  ordered n -> Insert n key value = Ok t -> ordered t.
Proof.
  intros Hord E. unfold ordered, keys.
  rewrite (Insert_elements _ _ _ _ Hord E). apply put_sorted. exact Hord.
Qed.

Lemma Tree_Insert_returns (t : Tree) (key : K) (value : V) :
  exists t', Tree_Insert t key value = Ok t'.
Proof.
  unfold Tree_Insert.
  destruct (Insert_returns (root t) key value) as (r & E & Hn).
  rewrite E; simpl. destruct r; [congruence|]. simpl. eauto.
Qed.

Lemma Tree_Insert_elements (t t' : Tree) (key : K) (value : V) :
  ordered (root t) ->
  Tree_Insert t key value = Ok t' ->
  elements (root t') = put key value (elements (root t)).
Proof.
  unfold Tree_Insert. intros Hord E.
  destruct (Insert (root t) key value) as [r| |] eqn:Ei; try discriminate.
  cbn [bind] in E.
  destruct (SetColor r ColorBlack) as [r'| |] eqn:Ec; try discriminate.
  inversion E; simpl.
  rewrite (SetColor_elements _ _ _ Ec). apply Insert_elements; assumption.
Qed.

Lemma keq_sym (a b : K) : keq a b = keq b a.
Proof.
  destruct (keq a b) eqn:E1, (keq b a) eqn:E2; try reflexivity.
  - apply keq_spec in E1; subst. rewrite keq_refl in E2; discriminate.
  - apply keq_spec in E2; subst. rewrite keq_refl in E1; discriminate.
Qed.

Lemma overwrite_above (key : K) (value : V) (l : list (K * V)) :
  Forall (above key) l -> map (overwrite key value) l = l.
Proof.
  induction l as [|[k1 v1] l IH]; simpl; intros Hall.
  - reflexivity.
  - inversion Hall as [|? ? Ha Hrest]; subst. unfold above in Ha; simpl in Ha.
    unfold overwrite at 1; simpl.
    rewrite (klt_not_eq _ _ Ha), (IH Hrest). reflexivity.
Qed.

Lemma holding_above (key : K) (l : list (K * V)) :
  Forall (above key) l -> holding key l = [].
Proof.
  induction l as [|[k1 v1] l IH]; simpl; intros Hall.
  - reflexivity.
  - inversion Hall as [|? ? Ha Hrest]; subst. unfold above in Ha; simpl in Ha.
    rewrite (klt_not_eq_sym _ _ Ha). apply IH; assumption.
Qed.

Lemma above_trans (k key : K) (l : list (K * V)) :
  klt key k = true -> Forall (above k) l -> Forall (above key) l.
Proof.
  intros Hlt Hall. eapply Forall_impl; [|exact Hall].
  intros kv Ha. unfold above in *. eapply klt_trans; eassumption.
Qed.

Lemma sorted_cons_inv (k : K) (v : V) (l : list (K * V)) :
  StronglySorted key_lt (map fst ((k, v) :: l)) ->
  StronglySorted key_lt (map fst l) /\ Forall (above k) l.
Proof.
  simpl; intros Hs. apply StronglySorted_inv in Hs. destruct Hs as [Hs Hall].
  split; [exact Hs|]. rewrite Forall_map in Hall. exact Hall.
Qed.

Lemma put_existing (key : K) (value : V) (l : list (K * V)) :
  StronglySorted key_lt (map fst l) ->
  In key (map fst l) ->
  put key value l = map (overwrite key value) l.
Proof.
  induction l as [|[k1 v1] l IH]; intros Hs Hin.
  - destruct Hin.
  - destruct (sorted_cons_inv _ _ _ Hs) as [Hs' Hall].
    simpl. unfold overwrite at 1; simpl.
    destruct (keq key k1) eqn:E.
    + apply keq_spec in E; subst k1.
      rewrite overwrite_above by exact Hall. reflexivity.
    + assert (Hin' : In key (map fst l)).
      { destruct Hin as [Heq|Hin]; [|exact Hin].
        simpl in Heq; subst k1. rewrite keq_refl in E; discriminate. }
      assert (Hgt : klt k1 key = true).
      { rewrite Forall_forall in Hall.
        apply in_map_iff in Hin'. destruct Hin' as ([k2 v2] & Hk & Hin2).
        simpl in Hk; subst k2. apply (Hall _ Hin2). }
      rewrite (klt_asym _ _ Hgt), (IH Hs' Hin'). reflexivity.
Qed.

Lemma holding_put (key : K) (value : V) (l : list (K * V)) :
  StronglySorted key_lt (map fst l) ->
  holding key (put key value l) = [(key, value)].
Proof.
  induction l as [|[k1 v1] l IH]; intros Hs.
  - simpl. rewrite keq_refl. reflexivity.
  - destruct (sorted_cons_inv _ _ _ Hs) as [Hs' Hall].
    simpl. destruct (keq key k1) eqn:E.
    + apply keq_spec in E; subst k1. simpl.
      rewrite keq_refl, holding_above by exact Hall. reflexivity.
    + destruct (klt key k1) eqn:L; simpl.
      * rewrite keq_refl, (klt_not_eq_sym _ _ L).
        rewrite holding_above by (eapply above_trans; eassumption).
        reflexivity.
      * rewrite (keq_sym k1 key), E. apply IH; assumption.
Qed.

Lemma keys_overwrite (key : K) (value : V) (l : list (K * V)) :
  map fst (map (overwrite key value) l) = map fst l.
Proof.
  rewrite map_map. apply map_ext. intros [k v]. unfold overwrite; simpl.
  destruct (keq key k); reflexivity.
Qed.

(** C7: on a tree with increasing in-order keys that holds [key], [Insert]
    returns, changes nothing of the in-order traversal but the value stored
    with [key], keeps the keys and the number of nodes, and afterwards exactly
    one stored pair has that key, with the new value. *)
Theorem Insert_existing_key_overwrites :
  forall (n : Node) (key : K) (value : V),
    ordered n ->
    In key (keys n) ->
    exists t,
      Insert n key value = Ok t
      /\ elements t = map (overwrite key value) (elements n)
      /\ keys t = keys n
      /\ size t = size n
      /\ holding key (elements t) = [(key, value)].
Proof.
  intros n key value Hord Hin.
  destruct (Insert_returns n key value) as (t & E & _).
  exists t. split; [exact E|].
  pose proof (Insert_elements _ _ _ _ Hord E) as Hel.
  assert (Hmap : elements t = map (overwrite key value) (elements n)).
  { rewrite Hel. apply put_existing; assumption. }
  repeat split.
  - exact Hmap.
  - unfold keys. rewrite Hmap. apply keys_overwrite.
  - rewrite !size_elements, Hmap. apply length_map.
  - rewrite Hel. apply holding_put. exact Hord.
Qed.

(** The same through the handle, which only recolours the root. *)
Lemma Tree_Insert_existing_key (t : Tree) (key : K) (value : V) :
  ordered (root t) ->
  In key (keys (root t)) ->
  exists t',
    Tree_Insert t key value = Ok t'
    /\ elements (root t') = map (overwrite key value) (elements (root t))
    /\ Tree_Search t' key = Search (root t') key.
Proof.
  intros Hord Hin.
  destruct (Tree_Insert_returns t key value) as (t' & E).
  exists t'. split; [exact E|]. split; [|reflexivity].
  rewrite (Tree_Insert_elements _ _ _ _ Hord E).
  apply put_existing; assumption.
Qed.

(** ** Runs of inserts *)

Lemma put_keys (key : K) (value : V) (l : list (K * V)) (k : K) :
  In k (map fst (put key value l)) <-> k = key \/ In k (map fst l).
Proof.
  induction l as [|[k1 v1] l IH]; simpl.
  - intuition.
  - destruct (keq key k1) eqn:E.
    + apply keq_spec in E; subst k1. simpl. intuition.
    + destruct (klt key k1); simpl; [intuition|].
      rewrite IH. intuition.
Qed.

Lemma run_inserts (kvs : list (K * V)) :
  forall t : Tree,
    ordered (root t) ->
    exists t',
      run (map (fun kv => OpInsert (fst kv) (snd kv)) kvs) t = Ok t'
      /\ ordered (root t')
      /\ (forall k, In k (keys (root t'))
                    <-> In k (map fst kvs) \/ In k (keys (root t))).
Proof.
  induction kvs as [|[key value] kvs IH]; intros t Hord; simpl.
  - exists t. repeat split; auto. intuition.
  - destruct (Tree_Insert_returns t key value) as (t1 & E1).
    rewrite E1; simpl.
    pose proof (Tree_Insert_elements _ _ _ _ Hord E1) as Hel.
    assert (Hord1 : ordered (root t1)).
    { unfold ordered, keys. rewrite Hel. apply put_sorted. exact Hord. }
    destruct (IH t1 Hord1) as (t' & Erun & Hord' & Hkeys).
    exists t'. repeat split; auto.
    + intros Hin. apply Hkeys in Hin. destruct Hin as [Hin|Hin]; [tauto|].
      unfold keys in Hin. rewrite Hel in Hin. apply put_keys in Hin.
      intuition congruence.
    + intros Hin. apply Hkeys. unfold keys at 1. rewrite Hel.
      rewrite put_keys. intuition congruence.
Qed.

(** C8: every sequence of inserts into the empty tree returns a tree whose
    in-order traversal yields strictly increasing keys, namely the inserted
    ones. *)
Theorem inserts_yield_increasing_keys :
  forall kvs : list (K * V),
    exists t : Tree,
      insert_all kvs = Ok t
      /\ StronglySorted key_lt (keys (root t))
      /\ (forall k, In k (keys (root t)) <-> In k (map fst kvs)).
Proof.
  intros kvs.
  destruct (run_inserts kvs emptyTree) as (t & E & Hord & Hkeys).
  - constructor.
  - exists t. repeat split; auto.
    + intros Hin. apply Hkeys in Hin. destruct Hin as [Hin|[]]. exact Hin.
    + intros Hin. apply Hkeys. left; exact Hin.
Qed.

(** ** The recursion budget of [Delete] and [DeleteMin] *)

Lemma agree_refl {A : Type} (o : outcome A) : o <> Exhausted -> agree o o.
Proof. intros Hne; split; [reflexivity|exact Hne]. Qed.

Lemma agree_bind {A B : Type} (m1 m2 : outcome A) (f g : A -> outcome B) :
  agree m1 m2 ->
  (forall a, m1 = Ok a -> agree (f a) (g a)) ->
  agree (bind m1 f) (bind m2 g).
Proof.
  intros [Heq Hne] Hfg. subst m2.
  destruct m1 as [a| |]; simpl.
  - apply Hfg; reflexivity.
  - split; [reflexivity|discriminate].
  - congruence.
Qed.

Lemma toggle_size (n : Node) : size (toggle n) = size n.
Proof. destruct n; reflexivity. Qed.

Lemma Rotate_size (n : Node) (d : Direction) :
  Rotate n d <> Exhausted
  /\ forall t, Rotate n d = Ok t -> size t = size n.
Proof.
  destruct n as [|k v l r b]; [split; [discriminate|discriminate]|].
  destruct d; unfold Rotate; simpl.
  - destruct r as [|kx vx lx rx bx]; simpl;
      (split; [discriminate|intros t E; inversion E; subst; simpl; lia]).
  - destruct l as [|kx vx lx rx bx]; simpl;
      (split; [discriminate|intros t E; inversion E; subst; simpl; lia]).
Qed.

Lemma MoveRedLeft_size (n : Node) :
  MoveRedLeft n <> Exhausted
  /\ forall t, MoveRedLeft n = Ok t -> size t = size n.
Proof.
  destruct n as [|k v l r b]; [split; discriminate|].
  destruct r as [|kr vr rl rr br]; [split; discriminate|].
  destruct rl as [|krl vrl rll rlr [|]]; cbn;
    (split; [discriminate|]); intros t E; inversion E; subst; simpl;
    rewrite ?toggle_size; simpl; lia.
Qed.

Lemma MoveRedRight_size (n : Node) :
  MoveRedRight n <> Exhausted
  /\ forall t, MoveRedRight n = Ok t -> size t = size n.
Proof.
  destruct n as [|k v l r b]; [split; discriminate|].
  destruct l as [|kl vl ll lr bl]; [split; discriminate|].
  destruct ll as [|kll vll lll llr [|]]; cbn;
    (split; [discriminate|]); intros t E; inversion E; subst; simpl;
    rewrite ?toggle_size; simpl; lia.
Qed.

Lemma FixUp_not_exhausted (n : Node) : FixUp n <> Exhausted.
Proof.
  destruct n as [|k v l r b]; [discriminate|].
  destruct (FixUp_elements k v l r b) as (t & E & _). rewrite E. discriminate.
Qed.

Lemma SearchMin_not_exhausted (n : Node) : SearchMin n <> Exhausted.
Proof.
  induction n as [|k v l IHl r IHr b]; simpl; [discriminate|].
  destruct l; [discriminate|exact IHl].
Qed.

(** After the guarded [MoveRedLeft], the recursion on the left child and the
    final [FixUp] do not depend on the budget. *)
Lemma descend_left_agree (rec1 rec2 : Node -> outcome Node)
    (k : K) (v : V) (l r : Node) (b : bool) :
  (forall c, size c < size (N k v l r b) -> agree (rec1 c) (rec2 c)) ->
  agree
    (c <- andM (notM (l0 <- NodeLeft (N k v l r b) ;; Ok (IsRed l0)))
               (notM (l0 <- NodeLeft (N k v l r b) ;;
                      ll <- NodeLeft l0 ;; Ok (IsRed ll))) ;;
     root <- (if c then MoveRedLeft (N k v l r b) else Ok (N k v l r b)) ;;
     l0 <- NodeLeft root ;;
     l' <- rec1 l0 ;;
     root <- set_children root Left l' ;;
     FixUp root)
    (c <- andM (notM (l0 <- NodeLeft (N k v l r b) ;; Ok (IsRed l0)))
               (notM (l0 <- NodeLeft (N k v l r b) ;;
                      ll <- NodeLeft l0 ;; Ok (IsRed ll))) ;;
     root <- (if c then MoveRedLeft (N k v l r b) else Ok (N k v l r b)) ;;
     l0 <- NodeLeft root ;;
     l' <- rec2 l0 ;;
     root <- set_children root Left l' ;;
     FixUp root).
Proof.
  intros Hrec.
  apply agree_bind.
  { apply agree_refl. destruct l as [|kl vl ll lr [|]]; cbn; discriminate. }
  intros c _.
  apply agree_bind.
  { apply agree_refl. destruct c; [apply MoveRedLeft_size|discriminate]. }
  intros root1 E1.
  assert (Hsize : size root1 = size (N k v l r b)).
  { destruct c; [apply MoveRedLeft_size; exact E1|].
    inversion E1; reflexivity. }
  destruct root1 as [|k1 v1 l1 r1 b1]; [apply agree_refl; discriminate|].
  apply agree_bind; [apply agree_refl; discriminate|].
  intros l0 E0. inversion E0; subst l0.
  apply agree_bind.
  { apply Hrec. rewrite <- Hsize. simpl. lia. }
  intros l' _. apply agree_refl. apply FixUp_not_exhausted.
Qed.

Lemma DeleteMin_fuel_agree (n : nat) :
  forall (m : nat) (t : Node),
    size t < n -> size t < m ->
    agree (DeleteMin_fuel n t) (DeleteMin_fuel m t).
Proof.
  induction n as [|n IH]; intros m t Hn Hm; [lia|].
  destruct m as [|m]; [lia|].
  destruct t as [|k v l r b]; [apply agree_refl; discriminate|].
  cbn [DeleteMin_fuel].
  apply agree_bind; [apply agree_refl; discriminate|].
  intros l0 _.
  destruct (is_nil l0); [apply agree_refl; discriminate|].
  apply descend_left_agree.
  intros c Hc. apply IH; lia.
Qed.

Lemma Delete_fuel_agree (n : nat) :
  forall (m : nat) (t : Node) (key : K),
    size t < n -> size t < m ->
    agree (Delete_fuel n t key) (Delete_fuel m t key).
Proof.
  induction n as [|n IH]; intros m t key Hn Hm; [lia|].
  destruct m as [|m]; [lia|].
  destruct t as [|k v l r b]; [apply agree_refl; discriminate|].
  cbn [Delete_fuel get_Key bind].
  destruct (klt key k).
  { apply (descend_left_agree (fun c => Delete_fuel n c key)
                              (fun c => Delete_fuel m c key)).
    intros c Hc. apply IH; lia. }
  apply agree_bind; [apply agree_refl; discriminate|].
  intros l0 _.
  apply agree_bind.
  { apply agree_refl. destruct (IsRed l0); [apply Rotate_size|discriminate]. }
  intros root1 E1.
  assert (Hsize1 : size root1 = size (N k v l r b)).
  { destruct (IsRed l0); [apply Rotate_size in E1; exact E1|].
    inversion E1; reflexivity. }
  destruct root1 as [|k1 v1 l1 r1 b1]; [apply agree_refl; discriminate|].
  cbn [get_Key NodeRight children bind].
  destruct (keq key k1 && is_nil r1); [apply agree_refl; discriminate|].
  apply agree_bind.
  { apply agree_refl. cbn. destruct (IsRed l1); cbn; discriminate. }
  intros c _.
  apply agree_bind.
  { apply agree_refl. destruct c; [apply MoveRedRight_size|discriminate]. }
  intros root2 E2.
  assert (Hsize2 : size root2 = size (N k v l r b)).
  { rewrite <- Hsize1.
    destruct c; [apply MoveRedRight_size; exact E2|].
    inversion E2; reflexivity. }
  destruct root2 as [|k2 v2 l2 r2 b2]; [apply agree_refl; discriminate|].
  cbn [get_Key NodeRight children bind].
  assert (Hr2 : size r2 < n /\ size r2 < m) by (simpl in Hsize2, Hn, Hm; lia).
  destruct (keq key k2).
  - apply agree_bind.
    { apply agree_refl. apply SearchMin_not_exhausted. }
    intros minNode _.
    destruct minNode as [|km vm lm rm bm]; [apply agree_refl; discriminate|].
    cbn [get_Key get_Value set_Key set_Value NodeRight children bind].
    apply agree_bind; [apply DeleteMin_fuel_agree; tauto|].
    intros r' _. apply agree_refl. apply FixUp_not_exhausted.
  - apply agree_bind; [apply IH; tauto|].
    intros r' _. apply agree_refl. apply FixUp_not_exhausted.
Qed.

(** X18: [Delete] terminates on every tree, by returning or by panicking:
    every recursive call is on a subtree with fewer nodes, so the recursion
    budget the model passes is never used up, and any budget above the number
    of nodes gives the same outcome. *)
Lemma Delete_fuel_enough (n : nat) (t : Node) (key : K) :
  size t < n ->
  Delete_fuel n t key = Delete t key /\ Delete t key <> Exhausted.
Proof.
  intros Hn. unfold Delete.
  destruct (Delete_fuel_agree (S (size t)) n t key) as [Heq Hne]; [lia|lia|].
  split; [symmetry; exact Heq|exact Hne].
Qed.

Lemma DeleteMin_fuel_enough (n : nat) (t : Node) :
  size t < n ->
  DeleteMin_fuel n t = DeleteMin t /\ DeleteMin t <> Exhausted.
Proof.
  intros Hn. unfold DeleteMin.
  destruct (DeleteMin_fuel_agree (S (size t)) n t) as [Heq Hne]; [lia|lia|].
  split; [symmetry; exact Heq|exact Hne].
Qed.

(** ** Deletion keeps the in-order traversal a subsequence *)

Lemma subseq_refl {A : Type} (l : list A) : subseq l l.
Proof. induction l; constructor; assumption. Qed.

Lemma subseq_empty {A : Type} (l : list A) : subseq [] l.
Proof. induction l; constructor; assumption. Qed.

Lemma subseq_app {A : Type} (a b c d : list A) :
  subseq a b -> subseq c d -> subseq (a ++ c) (b ++ d).
Proof.
  intros Hab Hcd. induction Hab; simpl.
  - exact Hcd.
  - apply subseq_skip; assumption.
  - apply subseq_keep; assumption.
Qed.

Lemma subseq_map {A B : Type} (f : A -> B) (a b : list A) :
  subseq a b -> subseq (map f a) (map f b).
Proof. intros Hab. induction Hab; simpl; constructor; assumption. Qed.

Lemma subseq_Forall {A : Type} (P : A -> Prop) (a b : list A) :
  subseq a b -> Forall P b -> Forall P a.
Proof.
  intros Hab. induction Hab; intros Hall.
  - constructor.
  - inversion Hall; subst; auto.
  - inversion Hall; subst; constructor; auto.
Qed.

Lemma subseq_sorted {A : Type} (R : A -> A -> Prop) (a b : list A) :
  subseq a b -> StronglySorted R b -> StronglySorted R a.
Proof.
  intros Hab. induction Hab; intros Hs.
  - constructor.
  - apply StronglySorted_inv in Hs. tauto.
  - apply StronglySorted_inv in Hs. destruct Hs as [Hs Hall].
    constructor; [auto|]. eapply subseq_Forall; eassumption.
Qed.

Lemma bind_Ok {A B : Type} (m : outcome A) (f : A -> outcome B) (b : B) :
  bind m f = Ok b -> exists a, m = Ok a /\ f a = Ok b.
Proof.
  destruct m as [a| |]; simpl; intros E; try discriminate.
  exists a; split; [reflexivity|exact E].
Qed.

Lemma FixUp_elements_inv (n t : Node) :
  FixUp n = Ok t -> elements t = elements n.
Proof.
  destruct n as [|k v l r b]; [discriminate|].
  destruct (FixUp_elements k v l r b) as (t0 & E0 & _ & Hel).
  intros E. rewrite E0 in E. inversion E; subst. exact Hel.
Qed.

Lemma MoveRedLeft_elements (n t : Node) :
  MoveRedLeft n = Ok t -> elements t = elements n.
Proof.
  destruct n as [|k v l r b]; [discriminate|].
  destruct r as [|kr vr rl rr br]; [discriminate|].
  destruct rl as [|krl vrl rll rlr [|]]; cbn;
    intros E; inversion E; subst; simpl;
    rewrite ?toggle_elements, <- ?app_assoc; simpl;
    rewrite <- ?app_assoc; reflexivity.
Qed.

Lemma MoveRedRight_elements (n t : Node) :
  MoveRedRight n = Ok t -> elements t = elements n.
Proof.
  destruct n as [|k v l r b]; [discriminate|].
  destruct l as [|kl vl ll lr bl]; [discriminate|].
  destruct ll as [|kll vll lll llr [|]]; cbn;
    intros E; inversion E; subst; simpl;
    rewrite ?toggle_elements, <- ?app_assoc; simpl;
    rewrite <- ?app_assoc; reflexivity.
Qed.

(** [SearchMin] returns the node that comes first in order. *)
Lemma SearchMin_elements (n m : Node) :
  SearchMin n = Ok m ->
  exists km vm rest,
    get_Key m = Ok km /\ get_Value m = Ok vm
    /\ elements n = (km, vm) :: rest.
Proof.
  revert m. induction n as [|k v l IHl r IHr b]; simpl; intros m E.
  - discriminate.
  - destruct l as [|kl vl ll lr bl].
    + inversion E; subst. simpl. exists k, v, (elements r). auto.
    + destruct (IHl m E) as (km & vm & rest & Ek & Ev & Hel).
      rewrite Hel. simpl. exists km, vm, (rest ++ (k, v) :: elements r). auto.
Qed.

Lemma descend_left_elements (rec : Node -> outcome Node)
    (k : K) (v : V) (l r : Node) (b : bool) (t' : Node) :
  (c <- andM (notM (l0 <- NodeLeft (N k v l r b) ;; Ok (IsRed l0)))
             (notM (l0 <- NodeLeft (N k v l r b) ;;
                    ll <- NodeLeft l0 ;; Ok (IsRed ll))) ;;
   root <- (if c then MoveRedLeft (N k v l r b) else Ok (N k v l r b)) ;;
   l0 <- NodeLeft root ;;
   l' <- rec l0 ;;
   root <- set_children root Left l' ;;
   FixUp root) = Ok t' ->
  exists l1 l' rest,
    rec l1 = Ok l'
    /\ elements (N k v l r b) = elements l1 ++ rest
    /\ elements t' = elements l' ++ rest.
Proof.
  intros E.
  apply bind_Ok in E. destruct E as (c & _ & E).
  apply bind_Ok in E. destruct E as (root1 & E1 & E).
  assert (Hel1 : elements root1 = elements (N k v l r b)).
  { destruct c; [apply MoveRedLeft_elements; exact E1|].
    inversion E1; reflexivity. }
  destruct root1 as [|k1 v1 l1 r1 b1]; [discriminate|].
  cbn [NodeLeft children bind] in E.
  apply bind_Ok in E. destruct E as (l' & El & E).
  cbn [set_children bind] in E. apply FixUp_elements_inv in E.
  exists l1, l', ((k1, v1) :: elements r1).
  split; [exact El|]. split; [symmetry; exact Hel1|exact E].
Qed.

Lemma DeleteMin_fuel_elements (n : nat) :
  forall t t' : Node,
    DeleteMin_fuel n t = Ok t' ->
    exists x rest, elements t = x :: rest /\ subseq (elements t') rest.
Proof.
  induction n as [|n IH]; intros t t' E; [discriminate|].
  destruct t as [|k v l r b]; [discriminate|].
  cbn [DeleteMin_fuel NodeLeft children bind] in E.
  destruct l as [|kl vl ll lr bl].
  - inversion E; subst. exists (k, v), (elements r).
    split; [reflexivity|apply subseq_empty].
  - cbn [is_nil] in E.
    apply (descend_left_elements (DeleteMin_fuel n)) in E.
    destruct E as (l1 & l' & rest & El & Hel & Hel').
    destruct (IH l1 l' El) as (x & rest1 & Hx & Hsub).
    exists x, (rest1 ++ rest). split.
    + rewrite Hel, Hx. reflexivity.
    + rewrite Hel'. apply subseq_app; [exact Hsub|apply subseq_refl].
Qed.

Lemma Delete_fuel_elements (n : nat) :
  forall (t : Node) (key : K) (t' : Node),
    Delete_fuel n t key = Ok t' -> subseq (elements t') (elements t).
Proof.
  induction n as [|n IH]; intros t key t' E; [discriminate|].
  destruct t as [|k v l r b]; [discriminate|].
  cbn [Delete_fuel get_Key bind] in E.
  destruct (klt key k).
  { apply (descend_left_elements (fun c => Delete_fuel n c key)) in E.
    destruct E as (l1 & l' & rest & El & Hel & Hel').
    rewrite Hel, Hel'. apply subseq_app; [|apply subseq_refl].
    apply (IH l1 key l' El). }
  apply bind_Ok in E. destruct E as (l0 & _ & E).
  apply bind_Ok in E. destruct E as (root1 & E1 & E).
  assert (Hel1 : elements root1 = elements (N k v l r b)).
  { destruct (IsRed l0); [apply Rotate_elements in E1; exact E1|].
    inversion E1; reflexivity. }
  rewrite <- Hel1. clear E1 Hel1.
  destruct root1 as [|k1 v1 l1 r1 b1]; [discriminate|].
  cbn [get_Key NodeRight children bind] in E.
  destruct (keq key k1 && is_nil r1).
  { inversion E; subst. apply subseq_empty. }
  apply bind_Ok in E. destruct E as (c & _ & E).
  apply bind_Ok in E. destruct E as (root2 & E2 & E).
  assert (Hel2 : elements root2 = elements (N k1 v1 l1 r1 b1)).
  { destruct c; [apply MoveRedRight_elements; exact E2|].
    inversion E2; reflexivity. }
  rewrite <- Hel2. clear E2 Hel2.
  destruct root2 as [|k2 v2 l2 r2 b2]; [discriminate|].
  cbn [get_Key NodeRight children bind] in E.
  destruct (keq key k2).
  - apply bind_Ok in E. destruct E as (minNode & Emin & E).
    destruct (SearchMin_elements _ _ Emin) as (km & vm & rest & Ek & Ev & Hel).
    rewrite Ek in E. cbn [bind set_Key] in E.
    rewrite Ev in E. cbn [bind set_Value NodeRight children] in E.
    apply bind_Ok in E. destruct E as (r' & Er & E).
    cbn [set_children] in E. apply FixUp_elements_inv in E.
    destruct (DeleteMin_fuel_elements _ _ _ Er) as (x & rest' & Hx & Hsub).
    rewrite E. simpl. rewrite Hx.
    apply subseq_app; [apply subseq_refl|].
    apply subseq_skip.
    rewrite Hel in Hx. inversion Hx; subst.
    apply subseq_keep. exact Hsub.
  - apply bind_Ok in E. destruct E as (r' & Er & E).
    cbn [set_children] in E. apply FixUp_elements_inv in E.
    rewrite E. simpl.
    apply subseq_app; [apply subseq_refl|].
    apply subseq_keep. apply (IH r2 key r' Er).
Qed.

Lemma Tree_Delete_ordered (t t' : Tree) (key : K) :
  ordered (root t) -> Tree_Delete t key = Ok t' -> ordered (root t').
Proof.
  unfold Tree_Delete, Delete. intros Hord E.
  apply bind_Ok in E. destruct E as (r & Er & E).
  apply bind_Ok in E. destruct E as (r' & Ec & E).
  inversion E; subst; simpl.
  unfold ordered, keys. rewrite (SetColor_elements _ _ _ Ec).
  eapply subseq_sorted; [|exact Hord].
  apply subseq_map. eapply Delete_fuel_elements; exact Er.
Qed.

Lemma Tree_Insert_ordered (t t' : Tree) (key : K) (value : V) :
  ordered (root t) -> Tree_Insert t key value = Ok t' -> ordered (root t').
Proof.
  intros Hord E. unfold ordered, keys.
  rewrite (Tree_Insert_elements _ _ _ _ Hord E). apply put_sorted. exact Hord.
Qed.

(** ** Insertion keeps the red-black shape *)

Lemma FixUp_black_black (k : K) (v : V) (l r : Node) (b : bool) (h : nat) :
  llrb h l -> llrb h r -> FixUp (N k v l r b) = Ok (N k v l r b).
Proof. intros Hl Hr. inversion Hl; inversion Hr; subst; reflexivity. Qed.

Lemma FixUp_red_black (k : K) (v : V) (l r : Node) (b : bool) (h : nat) :
  red_ok h l -> llrb h r -> FixUp (N k v l r b) = Ok (N k v l r b).
Proof.
  intros Hl Hr. inversion Hl as [kl vl ll lr h0 Hll Hlr]; subst.
  inversion Hll; inversion Hr; subst; reflexivity.
Qed.

Lemma FixUp_black_red (k : K) (v : V) (l r : Node) (b : bool) (h : nat) :
  llrb h l -> red_ok h r ->
  exists kr vr rl rr,
    r = N kr vr rl rr false
    /\ FixUp (N k v l r b) = Ok (N kr vr (N k v l rl false) rr b).
Proof.
  intros Hl Hr. inversion Hr as [kr vr rl rr h0 Hrl Hrr]; subst.
  exists kr, vr, rl, rr. split; [reflexivity|].
  inversion Hl; inversion Hrr; subst; reflexivity.
Qed.

Lemma FixUp_red_red_children (k : K) (v : V) (l r : Node) (h : nat) :
  red_ok h l -> red_ok h r ->
  exists t, FixUp (N k v l r true) = Ok t /\ red_ok (S h) t.
Proof.
  intros Hl Hr.
  inversion Hl as [kl vl ll lr h0 Hll Hlr]; subst.
  inversion Hr as [kr vr rl rr h0 Hrl Hrr]; subst.
  eexists; split; [reflexivity|].
  constructor; constructor; assumption.
Qed.

Lemma FixUp_left_red_red (k : K) (v : V) (l r : Node) (h : nat) :
  red_red h l -> llrb h r ->
  exists t, FixUp (N k v l r true) = Ok t /\ red_ok (S h) t.
Proof.
  intros Hl Hr.
  inversion Hl as [kl vl ll lr h0 Hll Hlr]; subst.
  inversion Hll as [kll vll lll llr h0 Hlll Hllr]; subst.
  assert (E : FixUp (N k v (N kl vl (N kll vll lll llr false) lr false) r true)
              = Ok (N kl vl (N kll vll lll llr true) (N k v lr r true) false)).
  { inversion Hr; subst; reflexivity. }
  eexists; split; [exact E|].
  constructor; constructor; assumption.
Qed.

(** [Insert] below a red node whose children have the shape. *)
Lemma Insert_under_red (k : K) (v : V) (l r : Node) (h : nat)
    (key : K) (value : V) :
  llrb h l -> llrb h r ->
  (exists l', Insert l key value = Ok l' /\ (llrb h l' \/ red_ok h l')) ->
  (exists r', Insert r key value = Ok r' /\ (llrb h r' \/ red_ok h r')) ->
  exists t, Insert (N k v l r false) key value = Ok t
            /\ (red_ok h t \/ red_red h t).
Proof.
  intros Hl Hr (l' & El & Hl') (r' & Er & Hr'). simpl.
  destruct (keq key k).
  - rewrite (FixUp_black_black _ _ _ _ _ _ Hl Hr).
    eexists; split; [reflexivity|]. left; constructor; assumption.
  - destruct (klt key k).
    + rewrite El; simpl. destruct Hl' as [Hl'|Hl'].
      * rewrite (FixUp_black_black _ _ _ _ _ _ Hl' Hr).
        eexists; split; [reflexivity|]. left; constructor; assumption.
      * rewrite (FixUp_red_black _ _ _ _ _ _ Hl' Hr).
        eexists; split; [reflexivity|]. right; constructor; assumption.
    + rewrite Er; simpl. destruct Hr' as [Hr'|Hr'].
      * rewrite (FixUp_black_black _ _ _ _ _ _ Hl Hr').
        eexists; split; [reflexivity|]. left; constructor; assumption.
      * destruct (FixUp_black_red k v l r' false h Hl Hr')
          as (kr & vr & rl & rr & Eq & E).
        rewrite E. eexists; split; [reflexivity|]. right.
        subst r'. inversion Hr'; subst.
        constructor; [constructor|]; assumption.
Qed.

Lemma Insert_llrb (h : nat) (t : Node) :
  llrb h t ->
  forall (key : K) (value : V),
    exists t', Insert t key value = Ok t' /\ (llrb h t' \/ red_ok h t').
Proof.
  intros Ht. induction Ht as
    [ | k v l r h Hl IHl Hr IHr
      | k v kl vl ll lr r h Hll IHll Hlr IHlr Hr IHr ];
    intros key value.
  - eexists; split; [reflexivity|]. right. constructor; constructor.
  - destruct (IHl key value) as (l' & El & Hl').
    destruct (IHr key value) as (r' & Er & Hr').
    simpl. destruct (keq key k).
    + rewrite (FixUp_black_black _ _ _ _ _ _ Hl Hr).
      eexists; split; [reflexivity|]. left; constructor; assumption.
    + destruct (klt key k).
      * rewrite El; simpl. destruct Hl' as [Hl'|Hl'].
        -- rewrite (FixUp_black_black _ _ _ _ _ _ Hl' Hr).
           eexists; split; [reflexivity|]. left; constructor; assumption.
        -- rewrite (FixUp_red_black _ _ _ _ _ _ Hl' Hr).
           eexists; split; [reflexivity|]. left.
           inversion Hl'; subst. constructor; assumption.
      * rewrite Er; simpl. destruct Hr' as [Hr'|Hr'].
        -- rewrite (FixUp_black_black _ _ _ _ _ _ Hl Hr').
           eexists; split; [reflexivity|]. left; constructor; assumption.
        -- destruct (FixUp_black_red k v l r' true h Hl Hr')
             as (kr & vr & rl & rr & Eq & E).
           rewrite E. eexists; split; [reflexivity|]. left.
           subst r'. inversion Hr'; subst. constructor; assumption.
  - destruct (Insert_under_red kl vl ll lr h key value Hll Hlr
                (IHll key value) (IHlr key value)) as (l' & El & Hl').
    destruct (IHr key value) as (r' & Er & Hr').
    assert (Hleft : red_ok h (N kl vl ll lr false))
      by (constructor; assumption).
    change (Insert (N k v (N kl vl ll lr false) r true) key value)
      with (if keq key k then FixUp (N k value (N kl vl ll lr false) r true)
            else if klt key k
                 then x <- Insert (N kl vl ll lr false) key value ;;
                      FixUp (N k v x r true)
                 else x <- Insert r key value ;;
                      FixUp (N k v (N kl vl ll lr false) x true)).
    destruct (keq key k).
    + rewrite (FixUp_red_black _ _ _ _ _ _ Hleft Hr).
      eexists; split; [reflexivity|]. left; constructor; assumption.
    + destruct (klt key k).
      * rewrite El. cbn [bind]. destruct Hl' as [Hl'|Hl'].
        -- rewrite (FixUp_red_black _ _ _ _ _ _ Hl' Hr).
           eexists; split; [reflexivity|]. left.
           inversion Hl'; subst. constructor; assumption.
        -- destruct (FixUp_left_red_red k v l' r h Hl' Hr) as (t & E & Ht).
           exists t. split; [exact E|right; exact Ht].
      * rewrite Er. cbn [bind]. destruct Hr' as [Hr'|Hr'].
        -- rewrite (FixUp_red_black _ _ _ _ _ _ Hleft Hr').
           eexists; split; [reflexivity|]. left; constructor; assumption.
        -- destruct (FixUp_red_red_children k v _ r' h Hleft Hr')
             as (t & E & Ht).
           exists t. split; [exact E|right; exact Ht].
Qed.

(** Through the handle the root is recoloured black, so the shape with a
    black root is kept by every insert. *)
Lemma Tree_Insert_llrb (t : Tree) (h : nat) (key : K) (value : V) :
  llrb h (root t) ->
  exists t' h', Tree_Insert t key value = Ok t' /\ llrb h' (root t').
Proof.
  intros Ht. unfold Tree_Insert.
  destruct (Insert_llrb h (root t) Ht key value) as (r & E & Hr).
  destruct (Insert_returns (root t) key value) as (r0 & E0 & Hn).
  rewrite E in E0; inversion E0; subst r0.
  rewrite E; simpl.
  destruct Hr as [Hr|Hr]; inversion Hr; subst; simpl; try congruence;
    eexists _, _; (split; [reflexivity|]); simpl; constructor; eassumption.
Qed.

(** The shape gives black balance and the red-link rules. *)
Lemma llrb_black_link (h : nat) (t : Node) :
  llrb h t -> black_link t + pred h = h.
Proof. intros Ht. inversion Ht; subst; simpl; lia. Qed.

Lemma Forall_map_add (c h : nat) (l : list nat) :
  c + pred h = h -> Forall (eq (pred h)) l -> Forall (eq h) (map (Nat.add c) l).
Proof.
  intros Hc Hall. rewrite Forall_map. eapply Forall_impl; [|exact Hall].
  intros a Ha. subst a. symmetry; exact Hc.
Qed.

Lemma llrb_black_paths (h : nat) (t : Node) :
  llrb h t -> Forall (eq (pred h)) (black_paths t).
Proof.
  intros Ht. induction Ht as
    [ | k v l r h Hl IHl Hr IHr
      | k v kl vl ll lr r h Hll IHll Hlr IHlr Hr IHr ]; simpl.
  - repeat constructor.
  - apply Forall_app; split;
      apply Forall_map_add; auto using llrb_black_link.
  - rewrite map_app, !map_map. simpl.
    repeat (apply Forall_app; split);
      apply Forall_map_add; auto using llrb_black_link.
Qed.

Lemma all_equal_Forall (c : nat) (l : list nat) :
  Forall (eq c) l -> all_equal l = true.
Proof.
  intros Hall. destruct l as [|a l]; [reflexivity|]. simpl.
  inversion Hall as [|? ? Ha Hrest]; subst. apply forallb_forall. intros x Hx.
  rewrite Forall_forall in Hrest. rewrite <- (Hrest x Hx). apply Nat.eqb_refl.
Qed.

Lemma llrb_red_rules_below (h : nat) (t : Node) :
  llrb h t ->
  no_red_right_under_red t = true /\ no_red_red t = true /\ IsRed t = false.
Proof.
  intros Ht. induction Ht as
    [ | k v l r h Hl IHl Hr IHr
      | k v kl vl ll lr r h Hll IHll Hlr IHlr Hr IHr ]; simpl.
  - auto.
  - destruct IHl as (A1 & B1 & _), IHr as (A2 & B2 & _).
    rewrite A1, A2, B1, B2. auto.
  - destruct IHll as (A1 & B1 & C1), IHlr as (A2 & B2 & C2),
             IHr as (A3 & B3 & C3).
    rewrite A1, A2, A3, B1, B2, B3, C1, C2. auto.
Qed.

Lemma llrb_invariants (h : nat) (t : Node) :
  llrb h t -> black_balanced t = true /\ red_rules t = true.
Proof.
  intros Ht. split.
  - unfold black_balanced. eapply all_equal_Forall.
    apply llrb_black_paths; exact Ht.
  - unfold red_rules, root_black.
    destruct (llrb_red_rules_below h t Ht) as (A & B & C).
    rewrite A, B, C. reflexivity.
Qed.

Lemma run_inserts_llrb (kvs : list (K * V)) :
  forall (t : Tree) (h : nat),
    llrb h (root t) ->
    exists t' h',
      run (map (fun kv => OpInsert (fst kv) (snd kv)) kvs) t = Ok t'
      /\ llrb h' (root t').
Proof.
  induction kvs as [|[key value] kvs IH]; intros t h Ht; simpl.
  - exists t, h. split; [reflexivity|exact Ht].
  - destruct (Tree_Insert_llrb t h key value Ht) as (t1 & h1 & E1 & Ht1).
    rewrite E1; simpl. apply (IH t1 h1 Ht1).
Qed.

(** X14: runs of inserts alone keep black balance and the red-link rules:
    the shape is lost only by [Delete]. *)
Lemma inserts_keep_invariants (kvs : list (K * V)) :
  exists t : Tree,
    insert_all kvs = Ok t
    /\ black_balanced (root t) = true
    /\ red_rules (root t) = true.
Proof.
  unfold insert_all.
  destruct (run_inserts_llrb kvs emptyTree 0 llrb_nil) as (t & h & E & Ht).
  exists t. split; [exact E|]. apply (llrb_invariants h). exact Ht.
Qed.

(** ** Reachable trees *)

Lemma run_reachable (ops : list op) :
  forall t t' : Tree, reachable t -> run ops t = Ok t' -> reachable t'.
Proof.
  induction ops as [|o ops IH]; simpl; intros t t' Hr E.
  - inversion E; subst; exact Hr.
  - destruct (apply_op t o) as [t1| |] eqn:E1; try discriminate.
    simpl in E. apply (IH t1 t'); [|exact E].
    destruct o as [key value|key]; simpl in E1.
    + eapply reachable_Insert; eassumption.
    + eapply reachable_Delete; eassumption.
Qed.

(** Invariant 1 (the in-order keys increase) holds in every tree the handle
    can hold, whatever inserts and deletes built it. *)
Lemma reachable_ordered (t : Tree) : reachable t -> ordered (root t).
Proof.
  intros Hr. induction Hr as [|t key value t' _ IH E|t key t' _ IH E].
  - constructor.
  - eapply Tree_Insert_ordered; eassumption.
  - eapply Tree_Delete_ordered; eassumption.
Qed.

(** ** Search on trees with increasing keys *)

Lemma Search_all_above (n : Node) (key : K) :
  Forall (above key) (elements n) -> Search n key = (zeroVal, false).
Proof.
  induction n as [|k v l IHl r IHr b]; simpl; intros Hall.
  - reflexivity.
  - apply Forall_app in Hall. destruct Hall as [_ Hall].
    inversion Hall as [|? ? Hk Hr]; subst. unfold above in Hk; simpl in Hk.
    rewrite (klt_not_eq _ _ Hk), Hk. apply IHr; exact Hr.
Qed.

Lemma Search_all_below (n : Node) (key : K) :
  Forall (below key) (elements n) -> Search n key = (zeroVal, false).
Proof.
  induction n as [|k v l IHl r IHr b]; simpl; intros Hall.
  - reflexivity.
  - apply Forall_app in Hall. destruct Hall as [Hl Hall].
    inversion Hall as [|? ? Hk Hr]; subst. unfold below in Hk; simpl in Hk.
    rewrite (klt_not_eq_sym _ _ Hk), (klt_asym _ _ Hk). apply IHl; exact Hl.
Qed.

(** X1: on a tree whose in-order keys increase, [Search] finds a key exactly
    when it is the key of the root: for a smaller key it descends into the
    right subtree and for a greater key into the left one, where the key
    cannot be, and reports not-found. *)
Theorem Search_finds_only_the_root_key :
  forall (n : Node) (key : K),
    ordered n ->
    Search n key
    = match n with
      | Nil => (zeroVal, false)
      | N k v _ _ _ => if keq key k then (v, true) else (zeroVal, false)
      end.
Proof.
  intros n key Hord. destruct n as [|k v l r b]; [reflexivity|].
  destruct (sorted_app_inv _ _ _ _ Hord) as (_ & _ & Bl & Ar).
  rewrite Search_node. destruct (keq key k) eqn:Ek; [reflexivity|].
  destruct (klt key k) eqn:Lk.
  - apply Search_all_above. eapply above_trans; eassumption.
  - apply Search_all_below. eapply below_trans; [|exact Bl].
    apply klt_total; assumption.
Qed.

(** X2: whatever the tree, a value [Search] returns with the found flag is
    stored in the tree under the searched key. *)
Theorem Search_found_is_stored :
  forall (n : Node) (key : K) (v : V),
    Search n key = (v, true) -> In (key, v) (elements n).
Proof.
  intros n key v. induction n as [|k v0 l IHl r IHr b]; intros E.
  - discriminate.
  - rewrite Search_node in E. simpl. apply in_or_app.
    destruct (keq key k) eqn:Ek.
    + apply keq_spec in Ek. inversion E; subst. right; left; reflexivity.
    + destruct (klt key k).
      * right; right. apply IHr; exact E.
      * left. apply IHl; exact E.
Qed.

(** ** The leftmost node *)

(** X3: on every non-empty subtree [SearchMin] returns a node without left
    child that holds the first pair of the in-order traversal; when the keys
    increase in order, its key is smaller than every other key. *)
Theorem SearchMin_returns_first_in_order :
  forall n : Node,
    n <> Nil ->
    exists km vm rm bm rest,
      SearchMin n = Ok (N km vm Nil rm bm)
      /\ elements n = (km, vm) :: rest
      /\ (ordered n -> Forall (above km) rest).
Proof.
  intros n Hn.
  assert (Hmin : exists km vm rm bm rest,
             SearchMin n = Ok (N km vm Nil rm bm)
             /\ elements n = (km, vm) :: rest).
  { induction n as [|k v l IHl r IHr b]; [congruence|].
    destruct l as [|kl vl ll lr bl].
    - exists k, v, r, b, (elements r). split; reflexivity.
    - destruct IHl as (km & vm & rm & bm & rest & E & Hel); [discriminate|].
      exists km, vm, rm, bm, (rest ++ (k, v) :: elements r).
      split; [exact E|]. change (elements (N k v (N kl vl ll lr bl) r b))
        with (elements (N kl vl ll lr bl) ++ (k, v) :: elements r).
      rewrite Hel. reflexivity. }
  destruct Hmin as (km & vm & rm & bm & rest & E & Hel).
  exists km, vm, rm, bm, rest. split; [exact E|]. split; [exact Hel|].
  intros Hord. unfold ordered, keys in Hord. rewrite Hel in Hord.
  apply (sorted_cons_inv _ _ _ Hord).
Qed.

(** ** Colour flips and rotations *)

Lemma toggle_toggle (n : Node) : toggle (toggle n) = n.
Proof.
  destruct n as [|k v l r b]; simpl; [|rewrite negb_involutive]; reflexivity.
Qed.

(** X4: a second [FlipColor] undoes the first; a flip changes the colour of
    the node and keeps the in-order traversal and the number of nodes. *)
Theorem FlipColor_twice :
  forall n t : Node,
    FlipColor n = Ok t ->
    FlipColor t = Ok n
    /\ IsRed t = negb (IsRed n)
    /\ elements t = elements n
    /\ size t = size n.
Proof.
  intros n t E. destruct n as [|k v l r b]; [discriminate|].
  inversion E; subst; simpl.
  rewrite !toggle_toggle, !toggle_elements, !toggle_size, negb_involutive.
  repeat split.
Qed.

(** X5: when the pivot is red, rotating in one direction and then rotating
    the result in the opposite direction gives the subtree back, colours
    included. *)
Theorem Rotate_there_and_back :
  forall (root pivot : Node) (direction : Direction),
    children root (opposite direction) = Ok pivot ->
    IsRed pivot = true ->
    (x <- Rotate root direction ;; Rotate x (opposite direction)) = Ok root.
Proof.
  intros n pivot direction Hpivot Hred.
  destruct n as [|k v l r b]; [discriminate|].
  destruct pivot as [|kx vx lx rx [|]]; try discriminate.
  destruct direction; simpl in Hpivot; inversion Hpivot; subst; reflexivity.
Qed.

(** X6: [Rotate] panics exactly when the subtree root or the pivot is
    absent; when it returns, the in-order traversal and the number of nodes
    are those of the argument. *)
Theorem Rotate_panics_or_keeps_order :
  forall (root : Node) (direction : Direction),
    (Rotate root direction = Panic
     <-> root = Nil \/ children root (opposite direction) = Ok Nil)
    /\ (forall t, Rotate root direction = Ok t ->
                  elements t = elements root /\ size t = size root).
Proof.
  intros n direction. split.
  - destruct n as [|k v l r b].
    + split; [left; reflexivity|reflexivity].
    + destruct direction; unfold Rotate; simpl.
      * destruct r; simpl.
        -- split; [right; reflexivity|reflexivity].
        -- split; [discriminate|intros [Hn|Hc]; discriminate].
      * destruct l; simpl.
        -- split; [right; reflexivity|reflexivity].
        -- split; [discriminate|intros [Hn|Hc]; discriminate].
  - intros t E. split.
    + eapply Rotate_elements; exact E.
    + apply (Rotate_size n direction); exact E.
Qed.

(** X7: [FixUp] returns on every node; it keeps the in-order traversal and
    the number of nodes, and the subtree it returns has no red right child
    at its root and no red left child with a red left child of its own. *)
Theorem FixUp_repairs_the_root :
  forall (k : K) (v : V) (l r : Node) (b : bool),
    exists k' v' l' r' b',
      FixUp (N k v l r b) = Ok (N k' v' l' r' b')
      /\ elements (N k' v' l' r' b') = elements (N k v l r b)
      /\ size (N k' v' l' r' b') = size (N k v l r b)
      /\ IsRed r' = false
      /\ (IsRed l' = true ->
          forall ll, NodeLeft l' = Ok ll -> IsRed ll = false).
Proof.
  intros k v l r b.
  destruct (FixUp_elements k v l r b) as (t & E & Hn & Hel).
  destruct t as [|k' v' l' r' b']; [congruence|].
  exists k', v', l', r', b'. split; [exact E|]. split; [exact Hel|].
  split; [rewrite !size_elements, Hel; reflexivity|].
  revert E. clear Hn Hel. unfold FixUp; cbn.
  repeat case_IsRed; intros E; inversion E; subst; cbn;
    (split; [reflexivity|]); intros Hred ll Ell;
    try discriminate; inversion Ell; subst; reflexivity.
Qed.

(** X8: [MoveRedLeft] panics exactly when the node or its right child is
    absent; when it returns, the in-order traversal and the number of nodes
    are those of the argument. *)
Theorem MoveRedLeft_panics_or_keeps_order :
  forall n : Node,
    (MoveRedLeft n = Panic <-> n = Nil \/ NodeRight n = Ok Nil)
    /\ (forall t, MoveRedLeft n = Ok t ->
                  elements t = elements n /\ size t = size n).
Proof.
  intros n. split.
  - destruct n as [|k v l r b]; [split; auto|].
    destruct r as [|kr vr rl rr br]; [split; auto|].
    destruct rl as [|krl vrl rll rlr [|]]; cbn;
      (split; [discriminate|intros [?|?]; discriminate]).
  - intros t E. split.
    + apply MoveRedLeft_elements; exact E.
    + apply (MoveRedLeft_size n); exact E.
Qed.

(** X9: [MoveRedRight] panics exactly when the node or its left child is
    absent; when it returns, the in-order traversal and the number of nodes
    are those of the argument. *)
Theorem MoveRedRight_panics_or_keeps_order :
  forall n : Node,
    (MoveRedRight n = Panic <-> n = Nil \/ NodeLeft n = Ok Nil)
    /\ (forall t, MoveRedRight n = Ok t ->
                  elements t = elements n /\ size t = size n).
Proof.
  intros n. split.
  - destruct n as [|k v l r b]; [split; auto|].
    destruct l as [|kl vl ll lr bl]; [split; auto|].
    destruct ll as [|kll vll lll llr [|]]; cbn;
      (split; [discriminate|intros [?|?]; discriminate]).
  - intros t E. split.
    + apply MoveRedRight_elements; exact E.
    + apply (MoveRedRight_size n); exact E.
Qed.

(** ** Inserts through the handle *)

Lemma FixUp_size_inv (n t : Node) : FixUp n = Ok t -> size t = size n.
Proof.
  intros E. apply FixUp_elements_inv in E.
  rewrite !size_elements, E. reflexivity.
Qed.

Lemma Insert_size (n t : Node) (key : K) (value : V) :
  Insert n key value = Ok t -> size t = size n \/ size t = S (size n).
Proof.
  revert t. induction n as [|k v l IHl r IHr b]; intros t E; simpl in E.
  - inversion E; subst. right; reflexivity.
  - destruct (keq key k).
    + apply FixUp_size_inv in E. left. exact E.
    + destruct (klt key k).
      * apply bind_Ok in E. destruct E as (l' & El & E).
        apply FixUp_size_inv in E. rewrite E. simpl.
        destruct (IHl l' El) as [Hs|Hs]; rewrite Hs; [left|right]; lia.
      * apply bind_Ok in E. destruct E as (r' & Er & E).
        apply FixUp_size_inv in E. rewrite E. simpl.
        destruct (IHr r' Er) as [Hs|Hs]; rewrite Hs; [left|right]; lia.
Qed.

Lemma Tree_Insert_always_returns_aux (t : Tree) (key : K) (value : V) :
  exists k v l r, Tree_Insert t key value = Ok (mkTree (N k v l r true)).
Proof.
  unfold Tree_Insert.
  destruct (Insert_returns (root t) key value) as (n & E & Hn).
  rewrite E; simpl. destruct n as [|k v l r b]; [congruence|].
  exists k, v, l, r. reflexivity.
Qed.

(** X10: the handle's [Insert] returns on every tree, whatever its shape;
    the tree it leaves has a black root node and as many nodes as before or
    one more. *)
Theorem Tree_Insert_always_returns :
  forall (t : Tree) (key : K) (value : V),
    exists k v l r,
      Tree_Insert t key value = Ok (mkTree (N k v l r true))
      /\ (size (N k v l r true) = size (root t)
          \/ size (N k v l r true) = S (size (root t))).
Proof.
  intros t key value. unfold Tree_Insert.
  destruct (Insert_returns (root t) key value) as (n & E & Hn).
  rewrite E; simpl. destruct n as [|k v l r b]; [congruence|].
  exists k, v, l, r. split; [reflexivity|].
  apply (Insert_size _ _ _ _ E).
Qed.

Lemma put_new (key : K) (value : V) (l : list (K * V)) :
  ~ In key (map fst l) ->
  length (put key value l) = S (length l)
  /\ (forall kv, In kv (put key value l) <-> kv = (key, value) \/ In kv l).
Proof.
  induction l as [|[k1 v1] l IH]; simpl; intros Hnot.
  - split; [reflexivity|]. intros kv. intuition.
  - destruct (keq key k1) eqn:E.
    + apply keq_spec in E. subst k1. tauto.
    + destruct (klt key k1); simpl.
      * split; [reflexivity|]. intros kv. intuition.
      * destruct IH as [Hlen Hin]; [tauto|].
        split; [rewrite Hlen; reflexivity|].
        intros kv. rewrite Hin. intuition.
Qed.

(** X11: on a tree whose in-order keys increase, [Insert] of a key the tree
    does not hold returns a tree with one node more, whose in-order keys
    still increase and whose pairs are the old ones and the new pair. *)
Theorem Insert_new_key_adds_one_node :
  forall (n : Node) (key : K) (value : V),
    ordered n ->
    ~ In key (keys n) ->
    exists t,
      Insert n key value = Ok t
      /\ size t = S (size n)
      /\ ordered t
      /\ (forall kv, In kv (elements t)
                     <-> kv = (key, value) \/ In kv (elements n)).
Proof.
  intros n key value Hord Hnot.
  destruct (Insert_returns n key value) as (t & E & _).
  exists t. split; [exact E|].
  pose proof (Insert_elements _ _ _ _ Hord E) as Hel.
  destruct (put_new key value (elements n) Hnot) as [Hlen Hin].
  split; [rewrite !size_elements, Hel; exact Hlen|].
  split; [eapply Insert_ordered; eassumption|].
  intros kv. rewrite Hel. apply Hin.
Qed.

(** ** Inserts of different keys commute *)

Ltac order_facts :=
  repeat match goal with
  | H : keq ?a ?b = true |- _ => apply keq_spec in H; subst
  | H : klt ?a ?a = true |- _ => rewrite klt_irrefl in H; discriminate
  | H : keq ?a ?a = false |- _ => rewrite keq_refl in H; discriminate
  | H : ?a <> ?a |- _ => contradiction H; reflexivity
  | H1 : klt ?a ?b = false, H2 : keq ?a ?b = false |- _ =>
      lazymatch goal with
      | _ : klt b a = true |- _ => fail
      | _ => pose proof (klt_total _ _ H1 H2)
      end
  | H1 : klt ?a ?b = true, H2 : klt ?b ?c = true |- _ =>
      lazymatch goal with
      | _ : klt a c = true |- _ => fail
      | _ => pose proof (klt_trans _ _ _ H1 H2)
      end
  | H1 : klt ?a ?b = true, H2 : klt ?a ?b = false |- _ =>
      rewrite H1 in H2; discriminate
  end.

Lemma put_put (k1 k2 : K) (v1 v2 : V) (l : list (K * V)) :
  k1 <> k2 ->
  put k1 v1 (put k2 v2 l) = put k2 v2 (put k1 v1 l).
Proof.
  intros Hne. induction l as [|[k v] l IH]; simpl.
  - destruct (keq k1 k2) eqn:E12, (keq k2 k1) eqn:E21,
             (klt k1 k2) eqn:L12, (klt k2 k1) eqn:L21;
      try reflexivity; order_facts.
  - destruct (keq k2 k) eqn:E2, (klt k2 k) eqn:L2,
             (keq k1 k) eqn:E1, (klt k1 k) eqn:L1; simpl;
      rewrite ?E1, ?L1, ?E2, ?L2; simpl;
      try (rewrite IH; reflexivity);
      destruct (keq k1 k2) eqn:E12, (keq k2 k1) eqn:E21,
               (klt k1 k2) eqn:L12, (klt k2 k1) eqn:L21; simpl;
      rewrite ?E1, ?L1, ?E2, ?L2; simpl;
      try reflexivity; order_facts.
Qed.

Lemma put_all_permutation (kvs kvs' : list (K * V)) :
  Permutation kvs kvs' ->
  NoDup (map fst kvs) ->
  forall l, put_all kvs l = put_all kvs' l.
Proof.
  unfold put_all. intros Hperm.
  induction Hperm as [|x a b Hab IH|x y a|a b c Hab IHab Hbc IHbc];
    intros Hnd l; simpl.
  - reflexivity.
  - inversion Hnd; subst. apply IH; assumption.
  - f_equal. apply put_put.
    simpl in Hnd. inversion Hnd as [|? ? Hnot _]; subst.
    intros Heq. apply Hnot. left. exact Heq.
  - rewrite IHab by exact Hnd. apply IHbc.
    eapply Permutation_NoDup; [|exact Hnd].
    apply Permutation_map. exact Hab.
Qed.

Lemma put_all_sorted (kvs l : list (K * V)) :
  StronglySorted key_lt (map fst l) ->
  StronglySorted key_lt (map fst (put_all kvs l)).
Proof.
  unfold put_all. revert l. induction kvs as [|[key value] kvs IH];
    simpl; intros l Hs; [exact Hs|].
  apply IH. apply put_sorted. exact Hs.
Qed.

Lemma run_inserts_elements (kvs : list (K * V)) :
  forall t : Tree,
    ordered (root t) ->
    exists t',
      run (map (fun kv => OpInsert (fst kv) (snd kv)) kvs) t = Ok t'
      /\ elements (root t') = put_all kvs (elements (root t)).
Proof.
  induction kvs as [|[key value] kvs IH]; intros t Hord; simpl.
  - exists t. split; reflexivity.
  - destruct (Tree_Insert_returns t key value) as (t1 & E1).
    rewrite E1; simpl.
    pose proof (Tree_Insert_elements _ _ _ _ Hord E1) as Hel.
    destruct (IH t1 (Tree_Insert_ordered _ _ _ _ Hord E1)) as (t' & E & Hel').
    exists t'. split; [exact E|]. rewrite Hel', Hel. reflexivity.
Qed.

(** X12: inserting the same pairs with pairwise different keys in two
    different orders into empty trees gives the same in-order traversal. *)
Theorem inserts_in_any_order :
  forall kvs kvs' : list (K * V),
    Permutation kvs kvs' ->
    NoDup (map fst kvs) ->
    exists t t' : Tree,
      insert_all kvs = Ok t
      /\ insert_all kvs' = Ok t'
      /\ elements (root t) = elements (root t').
Proof.
  intros kvs kvs' Hperm Hnd. unfold insert_all.
  assert (Hempty : ordered (root (emptyTree : Tree))) by constructor.
  destruct (run_inserts_elements kvs emptyTree Hempty) as (t & E & Hel).
  destruct (run_inserts_elements kvs' emptyTree Hempty) as (t' & E' & Hel').
  exists t, t'. split; [exact E|]. split; [exact E'|].
  rewrite Hel, Hel'. apply put_all_permutation; assumption.
Qed.

(** ** Every tree of the handle *)

Lemma sorted_NoDup (l : list K) : StronglySorted key_lt l -> NoDup l.
Proof.
  induction l as [|a l IH]; intros Hs; [constructor|].
  apply StronglySorted_inv in Hs. destruct Hs as [Hs Hall].
  constructor; [|auto].
  intros Hin. rewrite Forall_forall in Hall.
  specialize (Hall a Hin). unfold key_lt in Hall.
  rewrite klt_irrefl in Hall. discriminate.
Qed.

(** X13: in every tree the handle can hold, whatever inserts and deletes
    built it, the in-order keys are strictly increasing, so no key is stored
    twice. *)
Theorem reachable_keys_increase :
  forall t : Tree,
    reachable t ->
    StronglySorted key_lt (keys (root t)) /\ NoDup (keys (root t)).
Proof.
  intros t Hr. pose proof (reachable_ordered t Hr) as Hord.
  split; [exact Hord|apply sorted_NoDup; exact Hord].
Qed.

(** X20: every tree the handle can hold is the initial empty tree or has a
    black root node. *)
Theorem reachable_root_is_black :
  forall t : Tree,
    reachable t ->
    t = emptyTree \/ exists k v l r, root t = N k v l r true.
Proof.
  intros t Hr. destruct Hr as [|t key value t' _ E|t key t' _ E].
  - left; reflexivity.
  - right. destruct (Tree_Insert_always_returns_aux t key value)
      as (k & v & l & r & E').
    rewrite E' in E. inversion E; subst. simpl. eauto.
  - right. unfold Tree_Delete in E.
    apply bind_Ok in E. destruct E as (n & _ & E).
    apply bind_Ok in E. destruct E as (n' & Ec & E).
    inversion E; subst; simpl.
    destruct n as [|k v l r b]; [discriminate|].
    inversion Ec; subst. eauto.
Qed.

(** ** The height after inserts *)

Lemma llrb_height (h : nat) (t : Node) :
  llrb h t -> height t <= 2 * h /\ 2 ^ h <= S (size t).
Proof.
  intros Ht. induction Ht as
    [ | k v l r h Hl IHl Hr IHr
      | k v kl vl ll lr r h Hll IHll Hlr IHlr Hr IHr ].
  - simpl. split; lia.
  - destruct IHl as [Hhl Hsl], IHr as [Hhr Hsr].
    change (2 ^ S h) with (2 * 2 ^ h). cbn [height size].
    split; lia.
  - destruct IHll as [Hhll Hsll], IHlr as [Hhlr Hslr], IHr as [Hhr Hsr].
    change (2 ^ S h) with (2 * 2 ^ h). cbn [height size].
    split; lia.
Qed.

(** X15: after any run of inserts into the empty tree, the height of the
    tree is at most twice the binary logarithm of its number of nodes plus
    one. *)
Theorem inserts_keep_height_logarithmic :
  forall kvs : list (K * V),
    exists t : Tree,
      insert_all kvs = Ok t
      /\ height (root t) <= 2 * Nat.log2 (S (size (root t))).
Proof.
  intros kvs. unfold insert_all.
  destruct (run_inserts_llrb kvs emptyTree 0 llrb_nil) as (t & h & E & Ht).
  exists t. split; [exact E|].
  destruct (llrb_height h (root t) Ht) as [Hh Hs].
  apply Nat.log2_le_pow2 in Hs; lia.
Qed.

(** ** Deleting a key the tree does not hold *)

Lemma in_keys_elements (n n' : Node) (x : K) :
  elements n' = elements n -> In x (keys n') -> In x (keys n).
Proof. unfold keys. intros E. rewrite E. auto. Qed.

Lemma Delete_fuel_missing_key (n : nat) :
  forall (t : Node) (key : K) (t' : Node),
    ~ In key (keys t) -> Delete_fuel n t key <> Ok t'.
Proof.
  induction n as [|n IH]; intros t key t' Hnot E; [discriminate|].
  destruct t as [|k v l r b]; [discriminate|].
  cbn [Delete_fuel get_Key bind] in E.
  destruct (klt key k).
  { apply (descend_left_elements (fun c => Delete_fuel n c key)) in E.
    destruct E as (l1 & l' & rest & El & Hel & _).
    apply (IH l1 key l'); [|exact El].
    intros Hin. apply Hnot. unfold keys in *. rewrite Hel, map_app.
    apply in_or_app. left; exact Hin. }
  apply bind_Ok in E. destruct E as (l0 & _ & E).
  apply bind_Ok in E. destruct E as (root1 & E1 & E).
  assert (Hel1 : elements root1 = elements (N k v l r b)).
  { destruct (IsRed l0); [apply Rotate_elements in E1; exact E1|].
    inversion E1; reflexivity. }
  assert (Hnot1 : ~ In key (keys root1)).
  { intros Hin. apply Hnot. eapply in_keys_elements; eassumption. }
  clear E1 Hel1 Hnot.
  destruct root1 as [|k1 v1 l1 r1 b1]; [discriminate|].
  cbn [get_Key NodeRight children bind] in E.
  destruct (keq key k1) eqn:Ek1.
  { apply keq_spec in Ek1. subst k1. apply Hnot1.
    unfold keys; simpl. rewrite map_app. apply in_or_app.
    right; left; reflexivity. }
  cbn [andb] in E.
  apply bind_Ok in E. destruct E as (c & _ & E).
  apply bind_Ok in E. destruct E as (root2 & E2 & E).
  assert (Hel2 : elements root2 = elements (N k1 v1 l1 r1 b1)).
  { destruct c; [apply MoveRedRight_elements; exact E2|].
    inversion E2; reflexivity. }
  assert (Hnot2 : ~ In key (keys root2)).
  { intros Hin. apply Hnot1. eapply in_keys_elements; eassumption. }
  clear E2 Hel2 Hnot1.
  destruct root2 as [|k2 v2 l2 r2 b2]; [discriminate|].
  cbn [get_Key NodeRight children bind] in E.
  destruct (keq key k2) eqn:Ek2.
  { apply keq_spec in Ek2. subst k2. apply Hnot2.
    unfold keys; simpl. rewrite map_app. apply in_or_app.
    right; left; reflexivity. }
  apply bind_Ok in E. destruct E as (r' & Er & _).
  apply (IH r2 key r'); [|exact Er].
  intros Hin. apply Hnot2. unfold keys in *. simpl. rewrite map_app.
  apply in_or_app. right; right; exact Hin.
Qed.

(** X16: [Delete] of a key the tree does not hold never returns: on every
    tree, the empty one included, it panics on an absent node, and so does
    the handle's [Delete]. *)
Theorem Delete_missing_key_panics :
  forall (t : Tree) (key : K),
    ~ In key (keys (root t)) ->
    Delete (root t) key = Panic /\ Tree_Delete t key = Panic.
Proof.
  intros t key Hnot.
  assert (E : Delete (root t) key = Panic).
  { destruct (Delete_fuel_agree (S (size (root t))) (S (size (root t)))
                (root t) key) as [_ Hne]; [lia|lia|].
    unfold Delete.
    destruct (Delete_fuel (S (size (root t))) (root t) key) as [t'| |] eqn:E.
    - exfalso. eapply Delete_fuel_missing_key; eassumption.
    - reflexivity.
    - congruence. }
  split; [exact E|]. unfold Tree_Delete. rewrite E. reflexivity.
Qed.

(** ** Deleting a key from a tree with increasing keys *)

Lemma not_in_above (key : K) (l : list (K * V)) :
  Forall (above key) l -> ~ In key (map fst l).
Proof.
  intros Hall Hin. apply in_map_iff in Hin. destruct Hin as (kv & Hk & Hin).
  rewrite Forall_forall in Hall. specialize (Hall kv Hin).
  unfold above in Hall. rewrite Hk, klt_irrefl in Hall. discriminate.
Qed.

Lemma not_in_below (key : K) (l : list (K * V)) :
  Forall (below key) l -> ~ In key (map fst l).
Proof.
  intros Hall Hin. apply in_map_iff in Hin. destruct Hin as (kv & Hk & Hin).
  rewrite Forall_forall in Hall. specialize (Hall kv Hin).
  unfold below in Hall. rewrite Hk, klt_irrefl in Hall. discriminate.
Qed.

(** Where the key of the old root is after the restructuring steps: still
    at the root, or on the side the recursion does not take. *)
Lemma MoveRedLeft_root_key (k : K) (v : V) (l r : Node) (b : bool)
    (k1 : K) (v1 : V) (l1 r1 : Node) (b1 : bool) :
  MoveRedLeft (N k v l r b) = Ok (N k1 v1 l1 r1 b1) ->
  k1 = k \/ In k (keys l1).
Proof.
  destruct r as [|kr vr rl rr br]; [discriminate|].
  destruct rl as [|krl vrl rll rlr [|]]; cbn;
    intros E; inversion E; subst; auto.
  right. unfold keys; simpl. rewrite map_app. apply in_or_app.
  right; left; reflexivity.
Qed.

Lemma Rotate_Right_root_key (k : K) (v : V) (l r : Node) (b : bool)
    (k1 : K) (v1 : V) (l1 r1 : Node) (b1 : bool) :
  Rotate (N k v l r b) Right = Ok (N k1 v1 l1 r1 b1) ->
  In k (keys r1).
Proof.
  destruct l as [|kl vl ll lr bl]; [discriminate|].
  cbn. intros E; inversion E; subst.
  unfold keys; simpl. rewrite map_app. apply in_or_app.
  right; left; reflexivity.
Qed.

Lemma MoveRedRight_root_key (k : K) (v : V) (l r : Node) (b : bool)
    (k1 : K) (v1 : V) (l1 r1 : Node) (b1 : bool) (x : K) :
  MoveRedRight (N k v l r b) = Ok (N k1 v1 l1 r1 b1) ->
  x = k \/ In x (keys r) ->
  x = k1 \/ In x (keys r1).
Proof.
  destruct l as [|kl vl ll lr bl]; [discriminate|].
  destruct ll as [|kll vll lll llr [|]]; cbn;
    intros E Hx; inversion E; subst; unfold keys in *; simpl;
    rewrite ?toggle_elements in *; auto.
  right. rewrite map_app. apply in_or_app. right. simpl.
  destruct Hx as [Hx|Hx]; [left; symmetry; exact Hx|right; exact Hx].
Qed.

Lemma ordered_subtrees (k : K) (v : V) (l r : Node) (b : bool) :
  ordered (N k v l r b) ->
  ordered l /\ ordered r
  /\ Forall (below k) (elements l) /\ Forall (above k) (elements r).
Proof. intros Hord. apply (sorted_app_inv _ _ _ _ Hord). Qed.

Lemma ordered_elements (n n' : Node) :
  elements n' = elements n -> ordered n -> ordered n'.
Proof. unfold ordered, keys. intros E. rewrite E. auto. Qed.

Lemma Delete_fuel_removes (n : nat) :
  forall (t : Node) (key : K) (t' : Node),
    ordered t -> Delete_fuel n t key = Ok t' -> ~ In key (keys t').
Proof.
  induction n as [|n IH]; intros t key t' Hord E; [discriminate|].
  destruct t as [|k v l r b]; [discriminate|].
  cbn [Delete_fuel get_Key bind] in E.
  destruct (klt key k) eqn:Lk.
  { (* the key is smaller than the key of the root *)
    apply bind_Ok in E. destruct E as (c & _ & E).
    apply bind_Ok in E. destruct E as (root1 & E1 & E).
    assert (Hroot : exists k1 v1 l1 r1 b1,
               root1 = N k1 v1 l1 r1 b1
               /\ elements root1 = elements (N k v l r b)
               /\ (k1 = k \/ In k (keys l1))).
    { destruct c.
      - pose proof (MoveRedLeft_elements _ _ E1) as Hel.
        destruct root1 as [|k1 v1 l1 r1 b1];
          [destruct r as [|? ? [|? ? ? ? [|]] ? ?]; discriminate|].
        exists k1, v1, l1, r1, b1. split; [reflexivity|]. split; [exact Hel|].
        eapply MoveRedLeft_root_key; exact E1.
      - inversion E1; subst. exists k, v, l, r, b. auto. }
    destruct Hroot as (k1 & v1 & l1 & r1 & b1 & -> & Hel & Hk).
    cbn [NodeLeft children bind] in E.
    apply bind_Ok in E. destruct E as (l' & El & E).
    cbn [set_children bind] in E. apply FixUp_elements_inv in E.
    destruct (ordered_subtrees _ _ _ _ _ (ordered_elements _ _ Hel Hord))
      as (Ol1 & Or1 & Bl1 & Ar1).
    assert (Hlt1 : klt key k1 = true).
    { destruct Hk as [->|Hin]; [exact Lk|].
      unfold keys in Hin. apply in_map_iff in Hin.
      destruct Hin as (kv & Hkv & Hin). rewrite Forall_forall in Bl1.
      specialize (Bl1 kv Hin). unfold below in Bl1. rewrite Hkv in Bl1.
      eapply klt_trans; eassumption. }
    unfold keys. rewrite E. simpl. rewrite map_app. intros Hin.
    apply in_app_or in Hin. destruct Hin as [Hin|[Hin|Hin]].
    - apply (IH l1 key l' Ol1 El). exact Hin.
    - simpl in Hin. subst k1. rewrite klt_irrefl in Hlt1. discriminate.
    - revert Hin. apply not_in_above. eapply above_trans; eassumption. }
  (* the key is the key of the root or greater *)
  apply bind_Ok in E. destruct E as (l0 & _ & E).
  apply bind_Ok in E. destruct E as (root1 & E1 & E).
  assert (Hroot1 : exists k1 v1 l1 r1 b1,
             root1 = N k1 v1 l1 r1 b1
             /\ elements root1 = elements (N k v l r b)
             /\ (k = k1 \/ In k (keys r1))).
  { destruct (IsRed l0).
    - pose proof (Rotate_elements _ _ _ E1) as Hel.
      destruct root1 as [|k1 v1 l1 r1 b1]; [destruct l; discriminate|].
      exists k1, v1, l1, r1, b1. split; [reflexivity|]. split; [exact Hel|].
      right. eapply Rotate_Right_root_key; exact E1.
    - inversion E1; subst. exists k, v, l, r, b. auto. }
  destruct Hroot1 as (k1 & v1 & l1 & r1 & b1 & -> & Hel1 & Hk1).
  clear E1.
  cbn [get_Key NodeRight children bind] in E.
  destruct (keq key k1 && is_nil r1).
  { inversion E; subst. intros []. }
  apply bind_Ok in E. destruct E as (c & _ & E).
  apply bind_Ok in E. destruct E as (root2 & E2 & E).
  assert (Hroot2 : exists k2 v2 l2 r2 b2,
             root2 = N k2 v2 l2 r2 b2
             /\ elements root2 = elements (N k v l r b)
             /\ (k = k2 \/ In k (keys r2))).
  { destruct c.
    - pose proof (MoveRedRight_elements _ _ E2) as Hel.
      destruct root2 as [|k2 v2 l2 r2 b2];
        [destruct l1 as [|? ? [|? ? ? ? [|]] ? ?]; discriminate|].
      exists k2, v2, l2, r2, b2. split; [reflexivity|].
      split; [rewrite Hel; exact Hel1|].
      eapply MoveRedRight_root_key; eassumption.
    - inversion E2; subst. exists k1, v1, l1, r1, b1. auto. }
  destruct Hroot2 as (k2 & v2 & l2 & r2 & b2 & -> & Hel2 & Hk2).
  clear E2 Hel1 Hk1.
  destruct (ordered_subtrees _ _ _ _ _ (ordered_elements _ _ Hel2 Hord))
    as (Ol2 & Or2 & Bl2 & Ar2).
  (* the keys of the left subtree are smaller than the key *)
  assert (Hleft : ~ In key (map fst (elements l2))).
  { apply not_in_below.
    assert (Hk2k : k2 = k \/ klt k2 k = true).
    { destruct Hk2 as [->|Hin]; [left; reflexivity|right].
      unfold keys in Hin. apply in_map_iff in Hin.
      destruct Hin as (kv & Hkv & Hin). rewrite Forall_forall in Ar2.
      specialize (Ar2 kv Hin). unfold above in Ar2. rewrite Hkv in Ar2.
      exact Ar2. }
    assert (Hkkey : k = key \/ klt k key = true).
    { destruct (keq key k) eqn:Ek.
      - apply keq_spec in Ek. left; symmetry; exact Ek.
      - right. apply klt_total; assumption. }
    destruct Hk2k as [->|H2]; destruct Hkkey as [<-|H1]; auto.
    - eapply below_trans; eassumption.
    - eapply below_trans; eassumption.
    - eapply below_trans; [|eassumption].
      eapply klt_trans; eassumption. }
  cbn [get_Key NodeRight children bind] in E.
  destruct (keq key k2) eqn:Ek2.
  - apply keq_spec in Ek2. subst k2.
    apply bind_Ok in E. destruct E as (minNode & Emin & E).
    destruct (SearchMin_elements _ _ Emin) as (km & vm & rest & Ek & Ev & Hel).
    rewrite Ek in E. cbn [bind set_Key] in E.
    rewrite Ev in E. cbn [bind set_Value NodeRight children] in E.
    apply bind_Ok in E. destruct E as (r' & Er & E).
    cbn [set_children] in E. apply FixUp_elements_inv in E.
    destruct (DeleteMin_fuel_elements _ _ _ Er) as (x & rest' & Hx & Hsub).
    unfold keys. rewrite E. simpl. rewrite map_app. intros Hin.
    apply in_app_or in Hin. destruct Hin as [Hin|Hin]; [exact (Hleft Hin)|].
    assert (Habove : Forall (above key) ((km, vm) :: elements r')).
    { rewrite Hel in Hx. inversion Hx; subst x rest'.
      rewrite Hel in Ar2. inversion Ar2; subst.
      constructor; [assumption|]. eapply subseq_Forall; eassumption. }
    exact (not_in_above _ _ Habove Hin).
  - apply bind_Ok in E. destruct E as (r' & Er & E).
    cbn [set_children] in E. apply FixUp_elements_inv in E.
    unfold keys. rewrite E. simpl. rewrite map_app. intros Hin.
    apply in_app_or in Hin. destruct Hin as [Hin|[Hin|Hin]].
    + exact (Hleft Hin).
    + simpl in Hin. subst k2. rewrite keq_refl in Ek2. discriminate.
    + apply (IH r2 key r' Or2 Er). exact Hin.
Qed.

(** X17: on a tree whose in-order keys increase, when [Delete] returns, the
    key is no longer in the tree, every pair of the result was in the tree
    before, in the same order, and the keys still increase. *)
Theorem Delete_removes_the_key :
  forall (n : Node) (key : K) (t' : Node),
    ordered n ->
    Delete n key = Ok t' ->
    ~ In key (keys t')
    /\ subseq (elements t') (elements n)
    /\ ordered t'.
Proof.
  intros n key t' Hord E. unfold Delete in E.
  pose proof (Delete_fuel_elements _ _ _ _ E) as Hsub.
  split; [eapply Delete_fuel_removes; eassumption|].
  split; [exact Hsub|].
  unfold ordered, keys. eapply subseq_sorted; [|exact Hord].
  apply subseq_map. exact Hsub.
Qed.

(** X21: whatever the tree, [Delete] and [DeleteMin] add and reorder
    nothing: when [Delete] returns, the in-order traversal of the result is
    the old one with some pairs left out, and when [DeleteMin] returns, it is
    the old one without its first pair, with possibly more pairs left out. *)
Theorem Delete_never_adds :
  forall (n : Node) (key : K),
    (forall t', Delete n key = Ok t' -> subseq (elements t') (elements n))
    /\ (forall t', DeleteMin n = Ok t' ->
                   subseq (elements t') (tl (elements n))).
Proof.
  intros n key. split; intros t' E.
  - eapply Delete_fuel_elements; exact E.
  - destruct (DeleteMin_fuel_elements _ _ _ E) as (x & rest & Hx & Hsub).
    rewrite Hx. exact Hsub.
Qed.

(** ** Deleting the minimum of a well-formed subtree *)

Lemma llrb_not_red (h : nat) (t : Node) : llrb h t -> IsRed t = false.
Proof. intros Ht. apply (llrb_red_rules_below h t Ht). Qed.

Lemma tl_app_nonempty {A : Type} (a b : list A) :
  a <> [] -> tl (a ++ b) = tl a ++ b.
Proof. destruct a; [congruence|reflexivity]. Qed.

Lemma elements_nonempty (k : K) (v : V) (l r : Node) (b : bool) :
  elements (N k v l r b) <> [].
Proof. simpl. destruct (elements l); discriminate. Qed.

Lemma DeleteMin_fuel_S (n : nat) (root : Node) :
  DeleteMin_fuel (S n) root
  = (l <- NodeLeft root ;;
     if is_nil l then Ok Nil
     else
       c <- andM (notM (l <- NodeLeft root ;; Ok (IsRed l)))
                 (notM (l <- NodeLeft root ;;
                        ll <- NodeLeft l ;; Ok (IsRed ll))) ;;
       root <- (if c then MoveRedLeft root else Ok root) ;;
       l <- NodeLeft root ;;
       l' <- DeleteMin_fuel n l ;;
       root <- set_children root Left l' ;;
       FixUp root).
Proof. reflexivity. Qed.

Lemma DeleteMin_black_from_red (h : nat) :
  DeleteMin_red (K:=K) (V:=V) h -> DeleteMin_black (K:=K) (V:=V) h.
Proof.
  intros Hred k v l r n Hl Hr Hn.
  destruct n as [|n]; [lia|].
  inversion Hl as [kl vl ll lr h0 Hll Hlr]; subst.
  destruct (Hred (N kl vl ll lr false) n Hl) as (l' & E & Hel & Hshape).
  { simpl in Hn |- *. lia. }
  rewrite DeleteMin_fuel_S. cbn -[FixUp DeleteMin_fuel elements].
  rewrite E. cbn [bind].
  assert (Hfix : FixUp (N k v l' r true) = Ok (N k v l' r true)).
  { destruct Hshape as [Hl'|Hl'].
    - apply (FixUp_black_black _ _ _ _ _ h Hl' Hr).
    - apply (FixUp_red_black _ _ _ _ _ h Hl' Hr). }
  rewrite Hfix. eexists; split; [reflexivity|]. split.
  - cbn [elements]. rewrite Hel.
    symmetry. apply tl_app_nonempty. apply elements_nonempty.
  - destruct Hshape as [Hl'|Hl'].
    + constructor; assumption.
    + inversion Hl'; subst. constructor; assumption.
Qed.

Lemma DeleteMin_close (t t' : Node) (k1 : K) (v1 : V) (l1 l' r1 : Node)
    (b1 : bool) :
  elements l' = tl (elements l1) ->
  l1 <> Nil ->
  elements (N k1 v1 l1 r1 b1) = elements t ->
  FixUp (N k1 v1 l' r1 b1) = Ok t' ->
  elements t' = tl (elements t).
Proof.
  intros Hel Hn Hroot E. apply FixUp_elements_inv in E.
  rewrite E, <- Hroot. cbn [elements]. rewrite Hel.
  symmetry. apply tl_app_nonempty.
  destruct l1; [congruence|apply elements_nonempty].
Qed.

Lemma DeleteMin_red_0 : DeleteMin_red (K:=K) (V:=V) 0.
Proof.
  intros t n Ht Hn. destruct n as [|n]; [lia|].
  inversion Ht as [k v l r h0 Hl Hr]; subst.
  inversion Hl; inversion Hr; subst.
  exists Nil. split; [reflexivity|]. split; [reflexivity|].
  left; constructor.
Qed.

Lemma DeleteMin_red_S (h : nat) :
  DeleteMin_red (K:=K) (V:=V) h ->
  DeleteMin_black (K:=K) (V:=V) h ->
  DeleteMin_red (K:=K) (V:=V) (S h).
Proof.
  intros Hred Hblack t n Ht Hn. destruct n as [|n]; [lia|].
  inversion Ht as [k v l r h0 Hl Hr]; subst.
  inversion Hl as
    [ | kl vl ll lr h0 Hll Hlr
      | kl vl kll vll lll llr lr h0 Hlll Hllr Hlr ]; subst.
  - inversion Hr as
      [ | kr vr rl rr h0 Hrl Hrr
        | kr vr krl vrl rll rlr rr h0 Hrll Hrlr Hrr ]; subst.
    + (* both children hold one key: the flip alone moves a red link left *)
      assert (Emove : MoveRedLeft
                        (N k v (N kl vl ll lr true) (N kr vr rl rr true) false)
                      = Ok (N k v (N kl vl ll lr false)
                                  (N kr vr rl rr false) true)).
      { unfold MoveRedLeft. cbn. rewrite (llrb_not_red _ _ Hrl). reflexivity. }
      rewrite DeleteMin_fuel_S.
      cbn -[FixUp DeleteMin_fuel elements MoveRedLeft].
      rewrite (llrb_not_red _ _ Hll).
      cbn -[FixUp DeleteMin_fuel elements MoveRedLeft].
      rewrite Emove. cbn -[FixUp DeleteMin_fuel elements MoveRedLeft].
      destruct (Hred (N kl vl ll lr false) n) as (l' & E & Hel & Hshape).
      { constructor; assumption. }
      { simpl in Hn |- *. lia. }
      rewrite E. cbn [bind].
      assert (Hright : red_ok h (N kr vr rl rr false))
        by (constructor; assumption).
      assert (Hclose : forall t',
                 FixUp (N k v l' (N kr vr rl rr false) true) = Ok t' ->
                 elements t'
                 = tl (elements (N k v (N kl vl ll lr true)
                                   (N kr vr rl rr true) false))).
      { intros t' Efix.
        apply (DeleteMin_close _ t' k v (N kl vl ll lr false) l'
                 (N kr vr rl rr false) true);
          [exact Hel|discriminate|reflexivity|exact Efix]. }
      destruct Hshape as [Hl'|Hl'].
      * destruct (FixUp_black_red k v l' _ true h Hl' Hright)
          as (kr' & vr' & rl' & rr' & Eq & Efix).
        inversion Eq; subst kr' vr' rl' rr'.
        rewrite Efix. eexists; split; [reflexivity|].
        split; [apply Hclose; exact Efix|].
        left. constructor; assumption.
      * destruct (FixUp_red_red_children k v l' _ h Hl' Hright)
          as (t' & Efix & Ht').
        exists t'. split; [exact Efix|].
        split; [apply Hclose; exact Efix|right; exact Ht'].
    + (* the right child holds two keys: one of them moves over the root *)
      assert (Emove : MoveRedLeft
                        (N k v (N kl vl ll lr true)
                           (N kr vr (N krl vrl rll rlr false) rr true) false)
                      = Ok (N krl vrl
                              (N k v (N kl vl ll lr false) rll true)
                              (N kr vr rlr rr true) false)).
      { reflexivity. }
      rewrite DeleteMin_fuel_S.
      cbn -[FixUp DeleteMin_fuel elements MoveRedLeft].
      rewrite (llrb_not_red _ _ Hll).
      cbn -[FixUp DeleteMin_fuel elements MoveRedLeft].
      rewrite Emove. cbn -[FixUp DeleteMin_fuel elements MoveRedLeft].
      destruct (Hblack k v (N kl vl ll lr false) rll n)
        as (l' & E & Hel & Hl').
      { constructor; assumption. }
      { assumption. }
      { simpl in Hn |- *. lia. }
      rewrite E. cbn [bind].
      assert (Hright : llrb (S h) (N kr vr rlr rr true))
        by (constructor; assumption).
      rewrite (FixUp_black_black _ _ _ _ _ _ Hl' Hright).
      eexists; split; [reflexivity|]. split.
      * apply (DeleteMin_close _ _ krl vrl
                 (N k v (N kl vl ll lr false) rll true) l'
                 (N kr vr rlr rr true) false);
          [exact Hel|discriminate|apply (MoveRedLeft_elements _ _ Emove)
          |apply FixUp_black_black with (h := S h); assumption].
      * right. constructor; assumption.
  - (* the left child holds two keys: no red link has to be moved *)
    rewrite DeleteMin_fuel_S.
    cbn -[FixUp DeleteMin_fuel elements MoveRedLeft].
    destruct (Hblack kl vl (N kll vll lll llr false) lr n)
      as (l' & E & Hel & Hl').
    { constructor; assumption. }
    { assumption. }
    { simpl in Hn |- *. lia. }
    rewrite E. cbn [bind].
    rewrite (FixUp_black_black _ _ _ _ _ _ Hl' Hr).
    eexists; split; [reflexivity|]. split.
    + apply (DeleteMin_close _ _ k v
               (N kl vl (N kll vll lll llr false) lr true) l' r false);
        [exact Hel|discriminate|reflexivity
        |apply FixUp_black_black with (h := S h); assumption].
    + right. constructor; assumption.
Qed.

Lemma DeleteMin_shapes (h : nat) :
  DeleteMin_red (K:=K) (V:=V) h /\ DeleteMin_black (K:=K) (V:=V) h.
Proof.
  induction h as [|h [IHred IHblack]].
  - split; [apply DeleteMin_red_0|].
    apply DeleteMin_black_from_red. apply DeleteMin_red_0.
  - assert (Hred : DeleteMin_red (K:=K) (V:=V) (S h))
      by (apply DeleteMin_red_S; assumption).
    split; [exact Hred|apply DeleteMin_black_from_red; exact Hred].
Qed.

(** X19: on a well-formed subtree whose root is red, or whose root is black
    with a red left child, [DeleteMin] returns; it removes the first pair of
    the in-order traversal and nothing else, and the result is well formed
    with the same number of black nodes on every path. *)
Theorem DeleteMin_removes_the_minimum :
  forall h : nat,
    (forall t : Node,
        red_ok h t ->
        exists t', DeleteMin t = Ok t'
                   /\ elements t' = tl (elements t)
                   /\ (llrb h t' \/ red_ok h t'))
    /\ (forall (k : K) (v : V) (l r : Node),
           red_ok h l -> llrb h r ->
           exists t', DeleteMin (N k v l r true) = Ok t'
                      /\ elements t' = tl (elements (N k v l r true))
                      /\ llrb (S h) t').
Proof.
  intros h. destruct (DeleteMin_shapes h) as [Hred Hblack]. split.
  - intros t Ht. apply Hred; [exact Ht|lia].
  - intros k v l r Hl Hr. apply Hblack; [exact Hl|exact Hr|lia].
Qed.

(** ** Rotations and black links *)

Lemma map_add_0 (l : list nat) : map (Nat.add 0) l = l.
Proof. apply map_id. Qed.

(** X22: a rotation about a red pivot changes the number of black links on
    no path from the subtree root down to an absent child. *)
Theorem Rotate_keeps_black_paths :
  forall (root pivot t : Node) (direction : Direction),
    children root (opposite direction) = Ok pivot ->
    IsRed pivot = true ->
    Rotate root direction = Ok t ->
    black_paths t = black_paths root.
Proof.
  intros n pivot t direction Hpivot Hred E.
  destruct n as [|k v l r b]; [discriminate|].
  destruct pivot as [|kx vx lx rx [|]]; try discriminate.
  destruct direction; simpl in Hpivot; inversion Hpivot; subst;
    inversion E; subst; cbn [black_paths black_link];
    rewrite ?map_app, ?map_map, ?map_add_0, <- ?app_assoc; reflexivity.
Qed.

(** ** Search after a delete *)

(** X23: when the handle's [Delete] of a key returns on a tree the handle
    can hold, the key is no longer stored and a following [Search] for it
    reports not-found with the zero value. *)
Theorem Tree_Delete_then_Search_misses :
  forall (t t' : Tree) (key : K),
    reachable t ->
    Tree_Delete t key = Ok t' ->
    ~ In key (keys (root t')) /\ Tree_Search t' key = (zeroVal, false).
Proof.
  intros t t' key Hr E.
  pose proof (reachable_ordered t Hr) as Hord.
  pose proof (Tree_Delete_ordered _ _ _ Hord E) as Hord'.
  assert (Hnot : ~ In key (keys (root t'))).
  { unfold Tree_Delete, Delete in E.
    apply bind_Ok in E. destruct E as (n & En & E).
    apply bind_Ok in E. destruct E as (n' & Ec & E).
    inversion E; subst; simpl.
    unfold keys. rewrite (SetColor_elements _ _ _ Ec).
    apply (Delete_fuel_removes _ _ _ _ Hord En). }
  split; [exact Hnot|].
  unfold Tree_Search.
  destruct (root t') as [|k v l r b]; [reflexivity|].
  destruct (ordered_subtrees _ _ _ _ _ Hord') as (_ & _ & Bl & Ar).
  rewrite Search_node. destruct (keq key k) eqn:Ek.
  - apply keq_spec in Ek. subst k. exfalso. apply Hnot.
    unfold keys; simpl. rewrite map_app. apply in_or_app.
    right; left; reflexivity.
  - destruct (klt key k) eqn:Lk.
    + apply Search_all_above. eapply above_trans; eassumption.
    + apply Search_all_below. eapply below_trans; [|exact Bl].
      apply klt_total; assumption.
Qed.

End Properties.

(** * The code on concrete trees *)

Open Scope Z_scope.

(** A right rotation at a root with a red left child. *)
Lemma Rotate_spec_witness :
  children rotate_root (opposite Right) = Ok rotate_pivot
  /\ rotate_pivot <> Nil
  /\ exists newRoot oldRoot,
      Rotate rotate_root Right = Ok newRoot
      /\ get_Key newRoot = get_Key rotate_pivot
      /\ get_Value newRoot = get_Value rotate_pivot
      /\ get_isBlack newRoot = get_isBlack rotate_root
      /\ children newRoot Right = Ok oldRoot
      /\ children newRoot (opposite Right)
         = children rotate_pivot (opposite Right)
      /\ get_Key oldRoot = get_Key rotate_root
      /\ get_Value oldRoot = get_Value rotate_root
      /\ get_isBlack oldRoot = Ok false
      /\ children oldRoot Right = children rotate_root Right
      /\ children oldRoot (opposite Right) = children rotate_pivot Right.
Proof.
  split; [reflexivity|]. split; [discriminate|].
  apply (Rotate_spec rotate_root rotate_pivot Right); [reflexivity|discriminate].
Defined.

(** A search for key 5 in a tree that holds 1, 2 and 3. *)
Lemma Search_not_found_zero_witness :
  snd (Search (root three_keys) 5) = false
  /\ fst (Search (root three_keys) 5) = 0.
Proof.
  split; [reflexivity|].
  apply (Search_not_found_zero (root three_keys) 5); reflexivity.
Defined.

(** An overwrite of the value of key 3 in a tree that holds 1, 2 and 3. *)
Lemma Insert_existing_key_overwrites_witness :
  ordered (root three_keys)
  /\ In 3 (keys (root three_keys))
  /\ exists t,
      Insert (root three_keys) 3 33 = Ok t
      /\ elements t = map (overwrite 3 33) (elements (root three_keys))
      /\ keys t = keys (root three_keys)
      /\ size t = size (root three_keys)
      /\ holding 3 (elements t) = [(3, 33)].
Proof.
  assert (Hord : ordered (root three_keys)).
  { repeat constructor. }
  assert (Hin : In 3 (keys (root three_keys))).
  { simpl; auto. }
  split; [exact Hord|]. split; [exact Hin|].
  apply (Insert_existing_key_overwrites (root three_keys) 3 33 Hord Hin).
Defined.

(** C1: after the inserts of key 2 and then of key 1 with value 11, the
    tree holds the pair (1, 11), and [Search] for key 1 reports not-found:
    it descends to the right of the root, where the key is not. *)
Theorem Search_misses_inserted_key :
  exists t1 t2 : ZTree,
    Tree_Insert emptyTree 2 2 = Ok t1
    /\ Tree_Insert t1 1 11 = Ok t2
    /\ reachable t2
    /\ In (1, 11) (elements (root t2))
    /\ Tree_Search t2 1 = (0, false).
Proof.
  exists (mkTree (leaf 2 true)),
         (mkTree (N 2 2 (N 1 11 Nil Nil false) Nil true)).
  assert (E1 : Tree_Insert (emptyTree : ZTree) 2 2 = Ok (mkTree (leaf 2 true)))
    by reflexivity.
  assert (E2 : Tree_Insert (mkTree (leaf 2 true)) 1 11
               = Ok (mkTree (N 2 2 (N 1 11 Nil Nil false) Nil true)))
    by reflexivity.
  repeat split; try reflexivity.
  - eapply reachable_Insert; [|exact E2].
    eapply reachable_Insert; [apply reachable_empty|exact E1].
  - simpl; auto.
Qed.

(** C2: in the tree built by the inserts of 2, 1 and 3, [Search] for the
    greater key 3 moves to the left child of the root and [Search] for the
    smaller key 1 moves to the right child: both keys are stored and both
    searches report not-found. *)
Theorem Search_descends_to_the_wrong_side :
  run [ins 2; ins 1; ins 3] emptyTree = Ok three_keys
  /\ Search (root three_keys) 3 = Search (leaf 1 true) 3
  /\ Search (root three_keys) 3 = (0, false)
  /\ Search (root three_keys) 1 = Search (leaf 3 true) 1
  /\ Search (root three_keys) 1 = (0, false)
  /\ keys (root three_keys) = [1; 2; 3].
Proof. repeat split. Qed.

(** C4: after the twelve inserts and the delete of key 10 the handle holds
    a tree in which the red node 6 has the red right child 8. *)
Theorem Delete_leaves_red_right_child_under_red :
  run twelve_inserts emptyTree = Ok (mkTree tree_of_twelve)
  /\ invariants (mkTree tree_of_twelve) = true
  /\ Tree_Delete (mkTree tree_of_twelve) 10 = Ok (mkTree tree_after_delete_10)
  /\ reachable (mkTree tree_after_delete_10)
  /\ no_red_right_under_red tree_after_delete_10 = false
  /\ no_red_red tree_after_delete_10 = false
  /\ root_black tree_after_delete_10 = true.
Proof.
  assert (E : run (twelve_inserts ++ [del 10]) emptyTree
              = Ok (mkTree tree_after_delete_10)) by (vm_compute; reflexivity).
  repeat split; try (vm_compute; reflexivity).
  eapply run_reachable; [apply reachable_empty|exact E].
Qed.

(** C3: after the twelve inserts and the deletes of keys 10 and 4 the handle
    holds a tree in which the paths from the root to an absent child cross 2
    black links through nodes 2 and 12 and through the left of node 6, and 4
    black links below node 8. *)
Theorem Delete_breaks_black_balance :
  run (twelve_inserts ++ [del 10]) emptyTree = Ok (mkTree tree_after_delete_10)
  /\ Tree_Delete (mkTree tree_after_delete_10) 4
     = Ok (mkTree tree_after_delete_4)
  /\ reachable (mkTree tree_after_delete_4)
  /\ black_paths tree_after_delete_4 = [2; 2; 2; 2; 2; 4; 4; 4; 4; 2; 2]%nat
  /\ black_balanced tree_after_delete_4 = false.
Proof.
  assert (E : run (twelve_inserts ++ [del 10; del 4]) emptyTree
              = Ok (mkTree tree_after_delete_4)) by (vm_compute; reflexivity).
  repeat split; try (vm_compute; reflexivity).
  eapply run_reachable; [apply reachable_empty|exact E].
Qed.

(** C5: the inserts of 1..1000 and the deletes of 1..999 all return, with
    black balance and the red-link rules holding after each of them, and leave
    the single key 1000; the delete of 1000 then panics, and so does the
    scenario as a whole: it does not end with an empty tree. *)
Theorem ascending_scenario_panics_at_last_delete :
  run_checking invariants (scenario_inserts ++ scenario_deletes 999) emptyTree
  = Ok (mkTree (leaf 1000 true), true)
  /\ Tree_Delete (mkTree (leaf 1000 true)) 1000 = Panic
  /\ run scenario emptyTree = Panic.
Proof. repeat split; vm_compute; reflexivity. Qed.

(** * Instances on the tree that holds 1, 2 and 3 *)

Lemma three_keys_ordered : ordered (root three_keys).
Proof. repeat constructor. Qed.

Lemma three_keys_reachable : reachable three_keys.
Proof.
  apply (run_reachable [ins 2; ins 1; ins 3] emptyTree three_keys).
  - apply reachable_empty.
  - reflexivity.
Qed.

Lemma Search_finds_only_the_root_key_witness :
  ordered (root three_keys)
  /\ Search (root three_keys) 3 = (0, false).
Proof.
  split; [exact three_keys_ordered|].
  exact (Search_finds_only_the_root_key (root three_keys) 3
           three_keys_ordered).
Defined.

Lemma Search_found_is_stored_witness :
  Search (root three_keys) 2 = (2, true)
  /\ In (2, 2) (elements (root three_keys)).
Proof.
  split; [reflexivity|].
  apply (Search_found_is_stored (root three_keys) 2 2). reflexivity.
Defined.

Lemma SearchMin_returns_first_in_order_witness :
  root three_keys <> Nil
  /\ exists km vm rm bm rest,
      SearchMin (root three_keys) = Ok (N km vm Nil rm bm)
      /\ elements (root three_keys) = (km, vm) :: rest
      /\ (ordered (root three_keys) -> Forall (above km) rest).
Proof.
  split; [discriminate|].
  apply (SearchMin_returns_first_in_order (root three_keys)). discriminate.
Defined.

Lemma FlipColor_twice_witness :
  FlipColor (root three_keys)
  = Ok (N 2 2 (leaf 1 false) (leaf 3 false) false)
  /\ FlipColor (N 2 2 (leaf 1 false) (leaf 3 false) false)
     = Ok (root three_keys)
  /\ IsRed (N 2 2 (leaf 1 false) (leaf 3 false) false)
     = negb (IsRed (root three_keys))
  /\ elements (N 2 2 (leaf 1 false) (leaf 3 false) false)
     = elements (root three_keys)
  /\ size (N 2 2 (leaf 1 false) (leaf 3 false) false)
     = size (root three_keys).
Proof.
  split; [reflexivity|].
  apply (FlipColor_twice (root three_keys)). reflexivity.
Defined.

Lemma Rotate_there_and_back_witness :
  children rotate_root (opposite Right) = Ok rotate_pivot
  /\ IsRed rotate_pivot = true
  /\ (x <- Rotate rotate_root Right ;; Rotate x (opposite Right))
     = Ok rotate_root.
Proof.
  split; [reflexivity|]. split; [reflexivity|].
  apply (Rotate_there_and_back rotate_root rotate_pivot Right); reflexivity.
Defined.

Lemma Rotate_keeps_black_paths_witness :
  children rotate_root (opposite Right) = Ok rotate_pivot
  /\ IsRed rotate_pivot = true
  /\ Rotate rotate_root Right
     = Ok (N 2 2 (leaf 1 true) (N 4 4 (leaf 3 true) (leaf 6 true) false) true)
  /\ black_paths
       (N 2 2 (leaf 1 true) (N 4 4 (leaf 3 true) (leaf 6 true) false) true)
     = black_paths rotate_root.
Proof.
  split; [reflexivity|]. split; [reflexivity|]. split; [reflexivity|].
  apply (Rotate_keeps_black_paths rotate_root rotate_pivot _ Right);
    reflexivity.
Defined.

Lemma three_keys_without_5 : ~ In 5 (keys (root three_keys)).
Proof. simpl. intros [E|[E|[E|[]]]]; discriminate. Qed.

Lemma Insert_new_key_adds_one_node_witness :
  ordered (root three_keys)
  /\ ~ In 5 (keys (root three_keys))
  /\ exists t,
      Insert (root three_keys) 5 50 = Ok t
      /\ size t = S (size (root three_keys))
      /\ ordered t
      /\ (forall kv, In kv (elements t)
                     <-> kv = (5, 50) \/ In kv (elements (root three_keys))).
Proof.
  split; [exact three_keys_ordered|]. split; [exact three_keys_without_5|].
  exact (Insert_new_key_adds_one_node (root three_keys) 5 50
           three_keys_ordered three_keys_without_5).
Defined.

Lemma two_pairs_distinct : NoDup (map fst [(1, 10); (2, 20)]).
Proof.
  simpl. constructor.
  - intros [E|[]]; discriminate.
  - constructor; [intros []|constructor].
Qed.

Lemma inserts_in_any_order_witness :
  Permutation [(1, 10); (2, 20)] [(2, 20); (1, 10)]
  /\ NoDup (map fst [(1, 10); (2, 20)])
  /\ exists t t' : ZTree,
      insert_all [(1, 10); (2, 20)] = Ok t
      /\ insert_all [(2, 20); (1, 10)] = Ok t'
      /\ elements (root t) = elements (root t').
Proof.
  split; [apply perm_swap|]. split; [exact two_pairs_distinct|].
  exact (inserts_in_any_order [(1, 10); (2, 20)] [(2, 20); (1, 10)]
           (perm_swap _ _ _) two_pairs_distinct).
Defined.

Lemma reachable_keys_increase_witness :
  reachable three_keys
  /\ StronglySorted key_lt (keys (root three_keys))
  /\ NoDup (keys (root three_keys)).
Proof.
  split; [exact three_keys_reachable|].
  exact (reachable_keys_increase three_keys three_keys_reachable).
Defined.

Lemma reachable_root_is_black_witness :
  reachable three_keys
  /\ (three_keys = emptyTree
      \/ exists k v l r, root three_keys = N k v l r true).
Proof.
  split; [exact three_keys_reachable|].
  exact (reachable_root_is_black three_keys three_keys_reachable).
Defined.

Lemma Delete_missing_key_panics_witness :
  ~ In 5 (keys (root three_keys))
  /\ Delete (root three_keys) 5 = Panic
  /\ Tree_Delete three_keys 5 = Panic.
Proof.
  split; [exact three_keys_without_5|].
  exact (Delete_missing_key_panics three_keys 5 three_keys_without_5).
Defined.

Lemma Delete_removes_the_key_witness :
  ordered (root three_keys)
  /\ Delete (root three_keys) 3 = Ok (N 2 2 (leaf 1 false) Nil false)
  /\ ~ In 3 (keys (N 2 2 (leaf 1 false) Nil false))
  /\ subseq (elements (N 2 2 (leaf 1 false) Nil false))
            (elements (root three_keys))
  /\ ordered (N 2 2 (leaf 1 false) Nil false).
Proof.
  split; [exact three_keys_ordered|]. split; [reflexivity|].
  apply (Delete_removes_the_key (root three_keys) 3);
    [exact three_keys_ordered|reflexivity].
Defined.

Lemma Delete_fuel_enough_witness :
  (size (root three_keys) < 10)%nat
  /\ Delete_fuel 10 (root three_keys) 3 = Delete (root three_keys) 3
  /\ Delete (root three_keys) 3 <> Exhausted.
Proof.
  assert (Hsize : (size (root three_keys) < 10)%nat) by (simpl; lia).
  split; [exact Hsize|].
  exact (Delete_fuel_enough 10 (root three_keys) 3 Hsize).
Defined.

Lemma Tree_Delete_then_Search_misses_witness :
  reachable three_keys
  /\ Tree_Delete three_keys 3 = Ok (mkTree (N 2 2 (leaf 1 false) Nil true))
  /\ ~ In 3 (keys (N 2 2 (leaf 1 false) Nil true))
  /\ Tree_Search (mkTree (N 2 2 (leaf 1 false) Nil true)) 3 = (0, false).
Proof.
  split; [exact three_keys_reachable|]. split; [reflexivity|].
  apply (Tree_Delete_then_Search_misses three_keys
           (mkTree (N 2 2 (leaf 1 false) Nil true)) 3);
    [exact three_keys_reachable|reflexivity].
Defined.
